(** * The Raft node of tinykv (package [raft], file raft.go)

    A shallow embedding of the election part of the consensus core:
    the [Raft] struct, its role transitions, the message dispatcher
    [Step], the logical clock [tick] and the vote tally [poll]; and of
    the single-node storage and the raw key-value API built on it
    (packages [standalone_storage] and [server]).

    Conventions.
    - [uint64] values are integers in [0, 2^64); the only arithmetic the
      source performs on them is [r.Term + 1], whose wrap-around is
      written out with [u64].
    - [int] values (the tick counters) are taken to be 64 bits wide
      (the width of Go's [int] on 64-bit targets); [electionElapsed++]
      wraps with [int64].
    - Go maps are [gmap]s.  A nil map reads like the empty map, but
      assigning into it panics; the field [votes] is therefore an
      [option], [None] being the nil map.
    - A run-time panic is the [Panic] outcome of the [result] type.
    - Calls to the logger ([log.Infof], [log.Warnf]) have no effect on
      the node and are left out. *)

From Stdlib Require Import ZArith Lia.
From stdpp Require Import gmap list strings.

Local Open Scope Z_scope.

(** ** Outcomes of a call: a value, or a Go panic *)

Inductive result (A : Type) : Type :=
| Ok (a : A)
| Panic (reason : string).
Arguments Ok {A} a.
Arguments Panic {A} reason.

Definition bind {A B : Type} (x : result A) (k : A → result B) : result B :=
  match x with
  | Ok a => k a
  | Panic s => Panic s
  end.

Notation "'let*' p := x 'in' k" := (bind x (λ p, k))
  (at level 10, p pattern, x at level 200, k at level 200, only parsing).

(** ** Machine integers *)

Definition u64 (x : Z) : Z := x mod 2 ^ 64.

Definition int64 (x : Z) : Z := (x + 2 ^ 63) mod 2 ^ 64 - 2 ^ 63.

Definition MaxUint64 : Z := 2 ^ 64 - 1.

Arguments u64 : simpl never.
Arguments int64 : simpl never.

(** ** Messages (package [eraftpb]) *)

Module pb.

(** Modelled from the spec: the generated package [eraftpb] is not among
    the sources.  Section 6 of the specification lists the message types
    and the fields of a message; an entry is the record
    [(index, term, payload, kind)] of section 3. *)
Inductive MessageType : Set :=
| MsgHup
| MsgBeat
| MsgPropose
| MsgAppend
| MsgAppendResponse
| MsgRequestVote
| MsgRequestVoteResponse
| MsgSnapshot
| MsgHeartbeat
| MsgHeartbeatResponse
| MsgTransferLeader
| MsgTimeoutNow.

#[global] Instance MessageType_eq_dec : EqDecision MessageType.
Proof. solve_decision. Defined.

Inductive EntryType : Set :=
| EntryNormal
| EntryConfChange.

#[global] Instance EntryType_eq_dec : EqDecision EntryType.
Proof. solve_decision. Defined.

Record Entry : Type := mkEntry {
  EntryKind : EntryType;
  EntryTerm : Z;
  EntryIndex : Z;
  Data : list Z
}.

Record SnapshotMetadata : Type := mkSnapshotMetadata {
  Peers : list Z;
  SnapIndex : Z;
  SnapTerm : Z
}.

Record Message : Type := mkMessage {
  MsgType : MessageType;
  To : Z;
  From : Z;
  Term : Z;
  LogTerm : Z;
  Index : Z;
  Entries : list Entry;
  Commit : Z;
  Snapshot : option SnapshotMetadata;
  Reject : bool
}.

Definition with_From (m : Message) (from : Z) : Message :=
  {| MsgType := MsgType m; To := To m; From := from; Term := Term m;
     LogTerm := LogTerm m; Index := Index m; Entries := Entries m;
     Commit := Commit m; Snapshot := Snapshot m; Reject := Reject m |}.

End pb.

(** ** The storage engine (packages [badger] and [engine_util]) *)

Module engine_util.

(** A byte slice. *)
Abbreviation bytes := (list Byte.byte).

(** Modelled from the spec: the library [badger] and the package
    [engine_util] are not among the sources ("an embedded ordered-key
    store").  The operations the sources call are the fields of an
    interface; a transaction and an iterator are values, every
    operation returns the value it leaves behind, and an [error] result
    is an [option], [None] being [nil]. *)
Class Badger : Type := {
  DB : Type;
  Txn : Type;
  Iterator : Type;
  Item : Type;
  Err : Type;
  NewTransaction : DB → bool → Txn;
  txnSet : Txn → bytes → bytes → Txn * option Err;
  txnDelete : Txn → bytes → Txn * option Err;
  Commit : Txn → Txn * option Err;
  Discard : Txn → Txn;
  KeyWithCF : string → bytes → bytes;
  NewCFIterator : string → Txn → Iterator;
  Seek : Iterator → bytes → Iterator;
  Valid : Iterator → bool;
  Next : Iterator → Iterator;
  itemOf : Iterator → Item;
  KeyCopy : Item → bytes;
  ValueCopy : Item → bytes * option Err
}.

(** An in-memory stand-in for the engine, to run the statements below on
    concrete data: a transaction is the list of the writes made through
    it, newest first, a deletion being a write of no value; [txnSet]
    refuses the empty key; an iterator is the list of pairs still to
    visit. *)
Definition inMemory : Badger := {|
  DB := list (bytes * option bytes);
  Txn := list (bytes * option bytes);
  Iterator := list (bytes * bytes);
  Item := bytes * bytes;
  Err := string;
  NewTransaction := λ d _, d;
  txnSet := λ t k v,
    match k with
    | [] => (t, Some "Key cannot be empty")
    | _ => ((k, Some v) :: t, None)
    end;
  txnDelete := λ t k, ((k, None) :: t, None);
  Commit := λ t, (t, None);
  Discard := λ t, t;
  KeyWithCF := λ cf k, k;
  NewCFIterator := λ cf t, omap (λ kv, pair kv.1 <$> kv.2) t;
  Seek := λ it k, it;
  Valid := λ it, match it with [] => false | _ => true end;
  Next := λ it, tail it;
  itemOf := λ it, default ([], []) (head it);
  KeyCopy := λ i, i.1;
  ValueCopy := λ i, (i.2, None)
|}.

End engine_util.

(** ** Modifications (package [storage]) *)

Module storage.
Import engine_util.


End storage.

(** ** The stand-alone storage (package [standalone_storage]) *)

Module standalone_storage.
Import engine_util storage.

Section WithBadger.
Context `{B : Badger}.

(** The storage after [Start]: [db] is not nil. *)
Record StandAloneStorage : Type := mkStandAloneStorage {
  db : DB
}.

Record badgerReader : Type := mkBadgerReader {
  txn : Txn
}.

Definition newBadgerRader (d : DB) : badgerReader * option Err :=
  (mkBadgerReader (NewTransaction d false), None).

Definition Reader (s : StandAloneStorage) : badgerReader * option Err :=
  newBadgerRader (db s).

Definition IterCF (r : badgerReader) (cf : string) : Iterator :=
  NewCFIterator cf (txn r).





End WithBadger.

End standalone_storage.

(** ** The raw API (package [server]) *)

Module kvrpcpb.
Import engine_util.

(** Modelled from the spec: the generated package [kvrpcpb] is not among
    the sources; the messages have the fields raw_api.go reads and
    writes.  [Limit] is a [uint32]. *)

Module KvPair.
Record t : Type := mk {
  Key : bytes;
  Value : bytes
}.
End KvPair.

Module RawPutRequest.
Record t : Type := mk {
  Key : bytes;
  Value : bytes;
  Cf : string
}.
End RawPutRequest.

Module RawDeleteRequest.
Record t : Type := mk {
  Key : bytes;
  Cf : string
}.
End RawDeleteRequest.

Module RawScanRequest.
Record t : Type := mk {
  StartKey : bytes;
  Limit : Z;
  Cf : string
}.
End RawScanRequest.

Module RawScanResponse.
Record t : Type := mk {
  Kvs : list KvPair.t
}.
End RawScanResponse.



End kvrpcpb.

Module server.
Import engine_util storage standalone_storage kvrpcpb.

Section WithBadger.
Context `{B : Badger}.

(** The server over a stand-alone storage, the implementation of
    [storage.Storage] among the sources. *)
Record Server : Type := mkServer {
  storage : StandAloneStorage
}.



(** The loop of [RawScan].  Each round that does not leave the loop
    appends one pair, so [limit] rounds and one more suffice; [fuel]
    counts the rounds left and [None] is a run that used them up. *)
Fixpoint scanLoop (fuel : nat) (limit : Z) (iter : Iterator) (kvs : list KvPair.t)
    : option (list KvPair.t + Err) :=
  match fuel with
  | O => None
  | S fuel =>
      if bool_decide (Z.of_nat (length kvs) >= limit) || negb (Valid iter)
      then Some (inl kvs)
      else
        let key := KeyCopy (itemOf iter) in
        match ValueCopy (itemOf iter) with
        | (_, Some err) => Some (inr err)
        | (val, None) =>
            scanLoop fuel limit (Next iter) (kvs ++ [KvPair.mk key val])
        end
  end.

Definition RawScan (srv : Server) (req : RawScanRequest.t)
    : option (option RawScanResponse.t * option Err) :=
  match Reader (storage srv) with
  | (_, Some err) => Some (None, Some err)
  | (reader, None) =>
      let iter := IterCF reader (RawScanRequest.Cf req) in
      let iter := Seek iter (RawScanRequest.StartKey req) in
      match scanLoop (S (Z.to_nat (RawScanRequest.Limit req)))
              (RawScanRequest.Limit req) iter [] with
      | None => None
      | Some (inr err) => Some (None, Some err)
      | Some (inl kvs) => Some (Some (RawScanResponse.mk kvs), None)
      end
  end.

End WithBadger.

End server.

(** ** The node (package [raft]) *)

Module raft.

(** [None] is the placeholder node ID used when there is no leader. *)
Definition None_ : Z := 0.

Inductive StateType : Set :=
| StateFollower
| StateCandidate
| StateLeader.

#[global] Instance StateType_eq_dec : EqDecision StateType.
Proof. solve_decision. Defined.

(** [ErrProposalDropped] is the only error value raft.go declares; the
    errors of [validate] are built in place and carry their text. *)
Inductive error : Type :=
| ErrProposalDropped
| errors_New (text : string).

(** Modelled from the spec: the log view [RaftLog] and its constructor
    [newLog] live in log.go, which is not among the sources.  raft.go
    reads the log only through [LastIndex()] and [LastTerm()], the index
    and the term of the last entry, so the view is represented by these
    two observations, and the storage by the view it opens. *)
Record RaftLog : Type := mkRaftLog {
  LastIndex : Z;
  LastTerm : Z
}.

Record Storage : Type := mkStorage {
  persisted : RaftLog
}.

Definition newLog (s : Storage) : RaftLog := persisted s.

Record Config : Type := mkConfig {
  ID : Z;
  peers : list Z;
  ElectionTick : Z;
  HeartbeatTick : Z;
  Storage_ : option Storage;
  Applied : Z
}.

Definition validate (c : Config) : option error :=
  if decide (ID c = None_) then
    Some (errors_New "cannot use none as id")
  else if decide (HeartbeatTick c ≤ 0) then
    Some (errors_New "heartbeat tick must be greater than 0")
  else if decide (ElectionTick c ≤ HeartbeatTick c) then
    Some (errors_New "election tick must be greater than heartbeat tick")
  else if decide (Storage_ c = None) then
    Some (errors_New "storage cannot be nil")
  else None.

Record Progress : Type := mkProgress {
  Match : Z;
  Next : Z
}.

Record Raft : Type := mkRaft {
  id : Z;
  Term : Z;
  Vote : Z;
  Log : RaftLog;
  Prs : gmap Z Progress;
  State : StateType;
  votes : option (gmap Z bool);
  msgs : list pb.Message;
  Lead : Z;
  heartbeatTimeout : Z;
  electionTimeout : Z;
  heartbeatElapsed : Z;
  electionElapsed : Z;
  leadTransferee : Z;
  PendingConfIndex : Z
}.

(** Field assignments [r.f = v]. *)

Definition set_Term (r : Raft) (v : Z) : Raft :=
  mkRaft (id r) v (Vote r) (Log r) (Prs r) (State r) (votes r) (msgs r)
    (Lead r) (heartbeatTimeout r) (electionTimeout r) (heartbeatElapsed r)
    (electionElapsed r) (leadTransferee r) (PendingConfIndex r).

Definition set_Vote (r : Raft) (v : Z) : Raft :=
  mkRaft (id r) (Term r) v (Log r) (Prs r) (State r) (votes r) (msgs r)
    (Lead r) (heartbeatTimeout r) (electionTimeout r) (heartbeatElapsed r)
    (electionElapsed r) (leadTransferee r) (PendingConfIndex r).

Definition set_Prs (r : Raft) (v : gmap Z Progress) : Raft :=
  mkRaft (id r) (Term r) (Vote r) (Log r) v (State r) (votes r) (msgs r)
    (Lead r) (heartbeatTimeout r) (electionTimeout r) (heartbeatElapsed r)
    (electionElapsed r) (leadTransferee r) (PendingConfIndex r).

Definition set_State (r : Raft) (v : StateType) : Raft :=
  mkRaft (id r) (Term r) (Vote r) (Log r) (Prs r) v (votes r) (msgs r)
    (Lead r) (heartbeatTimeout r) (electionTimeout r) (heartbeatElapsed r)
    (electionElapsed r) (leadTransferee r) (PendingConfIndex r).

Definition set_votes (r : Raft) (v : option (gmap Z bool)) : Raft :=
  mkRaft (id r) (Term r) (Vote r) (Log r) (Prs r) (State r) v (msgs r)
    (Lead r) (heartbeatTimeout r) (electionTimeout r) (heartbeatElapsed r)
    (electionElapsed r) (leadTransferee r) (PendingConfIndex r).

Definition set_msgs (r : Raft) (v : list pb.Message) : Raft :=
  mkRaft (id r) (Term r) (Vote r) (Log r) (Prs r) (State r) (votes r) v
    (Lead r) (heartbeatTimeout r) (electionTimeout r) (heartbeatElapsed r)
    (electionElapsed r) (leadTransferee r) (PendingConfIndex r).

Definition set_Lead (r : Raft) (v : Z) : Raft :=
  mkRaft (id r) (Term r) (Vote r) (Log r) (Prs r) (State r) (votes r) (msgs r)
    v (heartbeatTimeout r) (electionTimeout r) (heartbeatElapsed r)
    (electionElapsed r) (leadTransferee r) (PendingConfIndex r).

Definition set_heartbeatElapsed (r : Raft) (v : Z) : Raft :=
  mkRaft (id r) (Term r) (Vote r) (Log r) (Prs r) (State r) (votes r) (msgs r)
    (Lead r) (heartbeatTimeout r) (electionTimeout r) v
    (electionElapsed r) (leadTransferee r) (PendingConfIndex r).

Definition set_electionElapsed (r : Raft) (v : Z) : Raft :=
  mkRaft (id r) (Term r) (Vote r) (Log r) (Prs r) (State r) (votes r) (msgs r)
    (Lead r) (heartbeatTimeout r) (electionTimeout r) (heartbeatElapsed r)
    v (leadTransferee r) (PendingConfIndex r).

(** Reads of a map that may be nil. *)

Definition votes_map (r : Raft) : gmap Z bool := default ∅ (votes r).

(** [r.votes[k]]: the zero value [false] when the key is absent. *)
Definition votes_at (r : Raft) (k : Z) : bool := default false (votes_map r !! k).

(** [len(m)] of a map. *)
Definition len {V : Type} (m : gmap Z V) : Z := Z.of_nat (size m).

(** *** send, reset and the role transitions *)

Definition send (r : Raft) (m : pb.Message) : Raft :=
  let m := pb.with_From m (id r) in
  set_msgs r (msgs r ++ [m]).

Definition reset (r : Raft) (term : Z) : Raft :=
  let r := if decide (Term r ≠ term)
           then set_Vote (set_Term r term) None_
           else r in
  let r := set_Lead r 0 in
  let r := set_electionElapsed r 0 in
  set_heartbeatElapsed r 0.

Definition becomeFollower (r : Raft) (term lead : Z) : Raft :=
  let r := reset r (Term r) in
  let r := set_Lead r lead in
  let r := set_Term r term in
  set_State r StateFollower.

Definition becomeCandidate (r : Raft) : Raft :=
  let r := reset r (u64 (Term r + 1)) in
  let r := set_State r StateCandidate in
  let r := set_Vote r (id r) in
  set_votes r (Some ∅).

Definition becomeLeader (r : Raft) : Raft :=
  let r := reset r (Term r) in
  set_State r StateLeader.

(** *** The vote tally *)

Definition poll (r : Raft) (from : Z) (vote : bool) : result (Raft * bool) :=
  if negb vote then Ok (r, false)
  else
    match votes r with
    | None => Panic "assignment to entry in nil map"
    | Some v =>
        let r := set_votes r (Some (<[from := true]> v)) in
        if decide (len (votes_map r) > 1 + len (Prs r) `quot` 2)
        then Ok (r, true)
        else Ok (r, false)
    end.

(** *** Campaigning *)

(** The request a campaigning node [r] addresses to peer [to]. *)
Definition voteRequest (r : Raft) (to : Z) : pb.Message :=
  {| pb.MsgType := pb.MsgRequestVote; pb.To := to; pb.From := id r;
     pb.Term := Term r; pb.LogTerm := LastTerm (Log r);
     pb.Index := LastIndex (Log r); pb.Entries := []; pb.Commit := 0;
     pb.Snapshot := None; pb.Reject := false |}.

(** [for id, _ := range r.Prs]: Go leaves the order of the iteration
    open; the model visits the keys in the order of [map_to_list].  The
    statements below speak of membership in the queue only. *)
Definition campaign (r : Raft) : Raft :=
  let r := becomeCandidate r in
  foldl (λ r to, send r (voteRequest r to)) r (map_to_list (Prs r)).*1.

Definition hup (r : Raft) : Raft :=
  if decide (State r = StateLeader) then r else campaign r.

(** *** The per-role handlers *)

Definition stepLeader (r : Raft) (m : pb.Message) : result (Raft * option error) :=
  Ok (r, None).

Definition stepFollower (r : Raft) (m : pb.Message) : result (Raft * option error) :=
  match pb.MsgType m with
  | pb.MsgHup => Ok (becomeCandidate r, None)
  | _ => Ok (r, None)
  end.

Definition stepCandidate (r : Raft) (m : pb.Message) : result (Raft * option error) :=
  match pb.MsgType m with
  | pb.MsgHup => Ok (r, None)
  | pb.MsgRequestVoteResponse =>
      let* (r, res) := poll r (pb.From m) (negb (pb.Reject m)) in
      if res then Ok (becomeLeader r, None) else Ok (r, None)
  | pb.MsgHeartbeat => Ok (becomeFollower r (pb.Term m) (pb.From m), None)
  | pb.MsgPropose => Ok (r, None)
  | _ => Ok (r, None)
  end.

(** *** Step *)

Definition voteResponse (r : Raft) (to : Z) (reject : bool) : pb.Message :=
  {| pb.MsgType := pb.MsgRequestVoteResponse; pb.To := to; pb.From := id r;
     pb.Term := Term r; pb.LogTerm := 0; pb.Index := 0; pb.Entries := [];
     pb.Commit := 0; pb.Snapshot := None; pb.Reject := reject |}.

Definition inLease (r : Raft) : bool :=
  bool_decide (Lead r ≠ None_) && bool_decide (electionElapsed r < electionTimeout r).

(** The first [switch] of [Step], on the term of the message.  [None]
    stands for its two [return nil]; [Some r'] is the node with which
    control reaches the second [switch]. *)
Definition stepTerm (r : Raft) (m : pb.Message) : option Raft :=
  if decide (pb.Term m = 0) then Some r
  else if decide (pb.Term m > Term r) then
    if bool_decide (pb.MsgType m = pb.MsgRequestVote) && inLease r then None
    else if decide (pb.MsgType m = pb.MsgAppend ∨ pb.MsgType m = pb.MsgHeartbeat
                    ∨ pb.MsgType m = pb.MsgSnapshot)
         then Some (becomeFollower r (pb.Term m) (pb.From m))
         else Some (becomeFollower r (pb.Term m) None_)
  else if decide (pb.Term m < Term r) then None
  else Some r.

Definition canVote (r : Raft) (m : pb.Message) : bool :=
  bool_decide (Vote r = pb.From m)
  || (bool_decide (Vote r = None_) && bool_decide (Lead r = None_)).

(** The second [switch] of [Step], on the type of the message.  The
    errors of the per-role handlers are discarded: [Step] ends with
    [return nil]. *)
Definition stepType (r : Raft) (m : pb.Message) : result (Raft * option error) :=
  match pb.MsgType m with
  | pb.MsgHup => Ok (hup r, None)
  | pb.MsgRequestVote =>
      if canVote r m then
        let r := send r (voteResponse r (pb.From m) false) in
        let r := set_electionElapsed r 0 in
        let r := set_Vote r (pb.From m) in
        Ok (r, None)
      else
        Ok (send r (voteResponse r (pb.From m) true), None)
  | _ =>
      match State r with
      | StateLeader => let* (r, _) := stepLeader r m in Ok (r, None)
      | StateCandidate => let* (r, _) := stepCandidate r m in Ok (r, None)
      | StateFollower => let* (r, _) := stepFollower r m in Ok (r, None)
      end
  end.

Definition Step (r : Raft) (m : pb.Message) : result (Raft * option error) :=
  match stepTerm r m with
  | None => Ok (r, None)
  | Some r => stepType r m
  end.

(** *** The logical clock *)

Definition hupMessage (r : Raft) : pb.Message :=
  {| pb.MsgType := pb.MsgHup; pb.To := 0; pb.From := id r; pb.Term := 0;
     pb.LogTerm := 0; pb.Index := 0; pb.Entries := []; pb.Commit := 0;
     pb.Snapshot := None; pb.Reject := false |}.

Definition tickElection (r : Raft) : result Raft :=
  let r := set_electionElapsed r (int64 (electionElapsed r + 1)) in
  if decide (electionElapsed r > electionTimeout r) then
    let* (r, _) := Step r (hupMessage r) in Ok r
  else Ok r.

Definition tickHeatbeat (r : Raft) : Raft := r.

Definition tick (r : Raft) : result Raft :=
  match State r with
  | StateFollower => tickElection r
  | StateCandidate => tickElection r
  | StateLeader => Ok (tickHeatbeat r)
  end.

(** *** Construction and draining *)

Definition Error (e : error) : string :=
  match e with
  | ErrProposalDropped => "raft proposal dropped"
  | errors_New s => s
  end.

Definition newRaft (c : Config) : result Raft :=
  match validate c, Storage_ c with
  | Some err, _ => Panic (Error err)
  | None, None => Panic "storage cannot be nil"
  | None, Some st =>
      let r := {| id := ID c; Term := 0; Vote := 0; Log := newLog st;
                  Prs := ∅; State := StateFollower; votes := None;
                  msgs := []; Lead := 0;
                  heartbeatTimeout := HeartbeatTick c;
                  electionTimeout := ElectionTick c;
                  heartbeatElapsed := 0; electionElapsed := 0;
                  leadTransferee := 0; PendingConfIndex := 0 |} in
      let r := foldl (λ r p, set_Prs r (<[p := mkProgress 0 0]> (Prs r))) r (peers c) in
      Ok (becomeFollower r (Term r) None_)
  end.

Definition readMessages (r : Raft) : list pb.Message * Raft :=
  (msgs r, set_msgs r []).

(** *** Calls made by the host *)

Inductive call : Type :=
| CallStep (m : pb.Message)
| CallTick.

Definition perform (r : Raft) (c : call) : result Raft :=
  match c with
  | CallStep m => let* (r, _) := Step r m in Ok r
  | CallTick => tick r
  end.

Fixpoint run (r : Raft) (cs : list call) : result Raft :=
  match cs with
  | [] => Ok r
  | c :: cs => let* r := perform r c in run r cs
  end.

(** ** The specification's own notions *)

(** Section 4.5: the log announced by message [m] is at least as
    up-to-date as the log of node [r]. *)
Definition logUpToDate (r : Raft) (m : pb.Message) : Prop :=
  pb.LogTerm m > LastTerm (Log r)
  ∨ (pb.LogTerm m = LastTerm (Log r) ∧ pb.Index m >= LastIndex (Log r)).

#[global] Instance logUpToDate_dec r m : Decision (logUpToDate r m).
Proof. unfold logUpToDate. apply _. Defined.

(** Section 4.6: the result of a tally over a cluster of [N] peers. *)
Inductive TallyResult : Set :=
| Won
| Lost
| Pending.

Definition granted (v : gmap Z bool) : Z := len (filter (λ kv, kv.2 = true) v).

Definition denied (v : gmap Z bool) : Z := len (filter (λ kv, kv.2 = false) v).

Definition tallyResult (v : gmap Z bool) (N : Z) : TallyResult :=
  if decide (granted v > N `quot` 2) then Won
  else if decide (denied v > N `quot` 2) then Lost
  else Pending.

(** ** Traces *)

(** What every node reached from [newRaft] satisfies: the term is not
    negative, and a candidate has an allocated tally. *)
Definition sound (r : Raft) : Prop :=
  0 ≤ Term r ∧ (State r = StateCandidate → votes r ≠ None).

(** A Heartbeat is a message between peers; term 0 marks the local
    messages (MsgHup, MsgBeat, MsgPropose). *)
Definition zeroTermHeartbeat (m : pb.Message) : Prop :=
  pb.MsgType m = pb.MsgHeartbeat ∧ pb.Term m = 0.

Definition regular (k : call) : Prop :=
  match k with
  | CallStep m => pb.Term m < MaxUint64 ∧ ¬ zeroTermHeartbeat m
  | CallTick => True
  end.


(** ** Nodes and messages of the scenarios *)

Definition threePeers : gmap Z Progress :=
  list_to_map [(1, mkProgress 0 0); (2, mkProgress 0 0); (3, mkProgress 0 0)].

(** Node 1 of a three-node cluster, election timeout 10, heartbeat
    timeout 1, idle timers and an empty queue. *)
Definition node (st : StateType) (term vote lead : Z) (log : RaftLog)
    (vs : option (gmap Z bool)) : Raft :=
  {| id := 1; Term := term; Vote := vote; Log := log; Prs := threePeers;
     State := st; votes := vs; msgs := []; Lead := lead;
     heartbeatTimeout := 1; electionTimeout := 10; heartbeatElapsed := 0;
     electionElapsed := 0; leadTransferee := 0; PendingConfIndex := 0 |}.

Definition emptyLog : RaftLog := mkRaftLog 0 0.

Definition message (t : pb.MessageType) (from to term : Z) : pb.Message :=
  {| pb.MsgType := t; pb.To := to; pb.From := from; pb.Term := term;
     pb.LogTerm := 0; pb.Index := 0; pb.Entries := []; pb.Commit := 0;
     pb.Snapshot := None; pb.Reject := false |}.

Definition bootstrap : Config :=
  {| ID := 1; peers := [1; 2; 3]; ElectionTick := 10; HeartbeatTick := 1;
     Storage_ := Some (mkStorage emptyLog); Applied := 0 |}.

(** ** The shape of a step *)

(** What no call changes: the identity of the node and its configuration. *)
Definition configOf (r : Raft) : Z * gmap Z Progress * RaftLog * Z * Z * Z * Z :=
  (id r, Prs r, Log r, heartbeatTimeout r, electionTimeout r,
   leadTransferee r, PendingConfIndex r).

Definition grantVote (r : Raft) (m : pb.Message) : Raft :=
  set_Vote (set_electionElapsed (send r (voteResponse r (pb.From m) false)) 0)
    (pb.From m).

Definition denyVote (r : Raft) (m : pb.Message) : Raft :=
  send r (voteResponse r (pb.From m) true).

(** The node with which [Step] enters its second switch. *)
Inductive lowered (m : pb.Message) (r : Raft) : Raft → Prop :=
| lowered_same :
    pb.Term m = 0 ∨ pb.Term m = Term r → lowered m r r
| lowered_stepDown (lead : Z) :
    pb.Term m ≠ 0 → pb.Term m > Term r →
    lead = (if decide (pb.MsgType m = pb.MsgAppend ∨ pb.MsgType m = pb.MsgHeartbeat
                       ∨ pb.MsgType m = pb.MsgSnapshot)
            then pb.From m else None_) →
    lowered m r (becomeFollower r (pb.Term m) lead).

(** What the second switch of [Step] does to the node. *)
Inductive handled (m : pb.Message) (r : Raft) : Raft → Prop :=
| handled_ignore :
    pb.MsgType m ≠ pb.MsgRequestVote → handled m r r
| handled_campaign :
    pb.MsgType m = pb.MsgHup → State r ≠ StateLeader → handled m r (campaign r)
| handled_grant :
    pb.MsgType m = pb.MsgRequestVote → canVote r m = true →
    handled m r (grantVote r m)
| handled_deny :
    pb.MsgType m = pb.MsgRequestVote → canVote r m = false →
    handled m r (denyVote r m)
| handled_poll (v : gmap Z bool) :
    pb.MsgType m = pb.MsgRequestVoteResponse → State r = StateCandidate →
    pb.Reject m = false → votes r = Some v →
    ¬ len (<[pb.From m := true]> v) > 1 + len (Prs r) `quot` 2 →
    handled m r (set_votes r (Some (<[pb.From m := true]> v)))
| handled_win (v : gmap Z bool) :
    pb.MsgType m = pb.MsgRequestVoteResponse → State r = StateCandidate →
    pb.Reject m = false → votes r = Some v →
    len (<[pb.From m := true]> v) > 1 + len (Prs r) `quot` 2 →
    handled m r (becomeLeader (set_votes r (Some (<[pb.From m := true]> v))))
| handled_follow :
    pb.MsgType m = pb.MsgHeartbeat → State r = StateCandidate →
    handled m r (becomeFollower r (pb.Term m) (pb.From m)).

(** A node that is not a follower has voted for itself and records no
    leader. *)
Definition selfVoted (r : Raft) : Prop :=
  State r ≠ StateFollower → Vote r = id r ∧ Lead r = None_.

(** ** Properties *)

(** *** Machine integers *)

Lemma u64_small (x : Z) : 0 ≤ x < 2 ^ 64 → u64 x = x.
Proof. intros H. unfold u64. by apply Z.mod_small. Qed.

Lemma u64_nonneg (x : Z) : 0 ≤ u64 x.
Proof. unfold u64. apply Z.mod_pos_bound. lia. Qed.

Lemma u64_succ (x : Z) : 0 ≤ x < MaxUint64 → u64 (x + 1) = x + 1.
Proof. unfold MaxUint64. intros H. apply u64_small. lia. Qed.

(** *** What each transition leaves alone *)

Lemma send_msgs (r : Raft) (m : pb.Message) :
  msgs (send r m) = msgs r ++ [pb.with_From m (id r)].
Proof. reflexivity. Qed.

Lemma reset_Term (r : Raft) (term : Z) : Term (reset r term) = term.
Proof.
  unfold reset. case_decide as H; simpl; [done|].
  destruct (decide (Term r = term)) as [E|E]; [exact E | contradiction].
Qed.

Lemma reset_same_term (r : Raft) :
  reset r (Term r) =
  set_heartbeatElapsed (set_electionElapsed (set_Lead r 0) 0) 0.
Proof. unfold reset. by rewrite decide_False by (intros H; by apply H). Qed.

Lemma becomeFollower_fields (r : Raft) (term lead : Z) :
  let r' := becomeFollower r term lead in
  State r' = StateFollower ∧ Term r' = term ∧ Lead r' = lead ∧
  Vote r' = Vote r ∧ electionElapsed r' = 0 ∧ heartbeatElapsed r' = 0 ∧
  votes r' = votes r ∧ msgs r' = msgs r ∧ id r' = id r ∧ Prs r' = Prs r.
Proof. unfold becomeFollower. rewrite reset_same_term. by repeat split. Qed.

Lemma becomeLeader_fields (r : Raft) :
  let r' := becomeLeader r in
  State r' = StateLeader ∧ Term r' = Term r ∧ Vote r' = Vote r ∧
  votes r' = votes r ∧ msgs r' = msgs r ∧ id r' = id r ∧ Prs r' = Prs r.
Proof. unfold becomeLeader. rewrite reset_same_term. by repeat split. Qed.

Lemma becomeCandidate_fields (r : Raft) :
  let r' := becomeCandidate r in
  State r' = StateCandidate ∧ Term r' = u64 (Term r + 1) ∧ Vote r' = id r ∧
  Lead r' = None_ ∧ electionElapsed r' = 0 ∧ heartbeatElapsed r' = 0 ∧
  votes r' = Some ∅ ∧ msgs r' = msgs r ∧ id r' = id r ∧ Prs r' = Prs r ∧
  Log r' = Log r.
Proof.
  unfold becomeCandidate, reset.
  case_decide; simpl; by repeat split.
Qed.

(** The loop of [campaign] appends one request per key it visits and
    touches nothing else. *)
Lemma broadcast_fold (l : list Z) (r : Raft) :
  foldl (λ r to, send r (voteRequest r to)) r l =
  set_msgs r (msgs r ++ (voteRequest r <$> l)).
Proof.
  revert r. induction l as [|to l IH]; intros r.
  - simpl. rewrite app_nil_r. by destruct r.
  - simpl. rewrite IH. unfold send at 2. simpl.
    rewrite <- app_assoc. by destruct r.
Qed.

Lemma campaign_unfold (r : Raft) :
  campaign r =
  set_msgs (becomeCandidate r)
    (msgs r ++ (voteRequest (becomeCandidate r) <$> (map_to_list (Prs r)).*1)).
Proof.
  unfold campaign. rewrite broadcast_fold.
  destruct (becomeCandidate_fields r) as (_&_&_&_&_&_&_&Hm&_&Hp&_).
  by rewrite Hm, Hp.
Qed.

Lemma set_msgs_fields (r : Raft) (l : list pb.Message) :
  let r' := set_msgs r l in
  State r' = State r ∧ Term r' = Term r ∧ Vote r' = Vote r ∧ Lead r' = Lead r ∧
  votes r' = votes r ∧ id r' = id r ∧ Prs r' = Prs r ∧ Log r' = Log r.
Proof. by repeat split. Qed.

Lemma voteRequest_ext (a b : Raft) (to : Z) :
  id a = id b → Term a = Term b → Log a = Log b →
  voteRequest a to = voteRequest b to.
Proof. unfold voteRequest. by intros -> -> ->. Qed.

Lemma campaign_fields (r : Raft) :
  let r' := campaign r in
  State r' = StateCandidate ∧ Term r' = u64 (Term r + 1) ∧ Vote r' = id r ∧
  Lead r' = None_ ∧ votes r' = Some ∅ ∧ id r' = id r ∧ Prs r' = Prs r ∧
  Log r' = Log r.
Proof.
  destruct (becomeCandidate_fields r) as (H1&H2&H3&H4&_&_&H5&_&H6&H7&H8).
  cbv zeta. rewrite campaign_unfold.
  match goal with
  | |- context [set_msgs ?x ?l] =>
      destruct (set_msgs_fields x l) as (E1&E2&E3&E4&E5&E6&E7&E8)
  end.
  rewrite E1, E2, E3, E4, E5, E6, E7, E8.
  exact (conj H1 (conj H2 (conj H3 (conj H4 (conj H5 (conj H6 (conj H7 H8))))))).
Qed.

(** *** The leader lease *)

(** C5.  A node that knows a leader ([Lead ≠ None]) and whose election
    timer has not run out ([electionElapsed < electionTimeout]) drops a
    RequestVote of a strictly higher term: [Step] returns [nil] and the
    node is left exactly as it was, so State, Term, Vote and Lead are
    unchanged and nothing is added to the outbound queue. *)
Theorem Step_lease_drops_RequestVote (r : Raft) (m : pb.Message) :
  0 ≤ Term r →
  Lead r ≠ None_ →
  electionElapsed r < electionTimeout r →
  pb.MsgType m = pb.MsgRequestVote →
  pb.Term m > Term r →
  Step r m = Ok (r, None)
  ∧ ∀ r', Step r m = Ok (r', None) →
      State r' = State r ∧ Term r' = Term r ∧ Vote r' = Vote r
      ∧ Lead r' = Lead r ∧ msgs r' = msgs r.
Proof.
  intros Hterm Hlead Hel Htype Hhigher.
  assert (Step r m = Ok (r, None)) as HS.
  { unfold Step, stepTerm, inLease.
    rewrite decide_False by lia.
    rewrite decide_True by done.
    by rewrite !bool_decide_eq_true_2. }
  split; [done|].
  intros r' HS'. rewrite HS in HS'. by simplify_eq.
Qed.

(** Scenario S5: a follower at term 2 with [Lead = 4] and an idle timer
    receives [RequestVote{From=9, Term=3}]. *)
Lemma Step_lease_drops_RequestVote_S5 :
  let r := node StateFollower 2 0 4 emptyLog None in
  let m := message pb.MsgRequestVote 9 1 3 in
  Step r m = Ok (r, None)
  ∧ ∀ r', Step r m = Ok (r', None) →
      State r' = State r ∧ Term r' = Term r ∧ Vote r' = Vote r
      ∧ Lead r' = Lead r ∧ msgs r' = msgs r.
Proof.
  intros r m.
  apply (Step_lease_drops_RequestVote r m); simpl; unfold None_; (lia || reflexivity).
Defined.

(** *** Becoming a candidate *)

(** C7, as the code has it.  After [becomeCandidate] the node votes for
    itself ([Vote = id]), its term is the old term plus one (modulo
    2^64), installed by [reset], and it is a candidate without a leader.
    The tally is a fresh empty map: every vote recorded before is gone,
    and no vote is recorded for the node itself, so that [votes[k]] reads
    [false] at every key, the node's own id included. *)
Theorem becomeCandidate_votes_for_self_with_empty_tally (r : Raft) :
  let r' := becomeCandidate r in
  State r' = StateCandidate
  ∧ Vote r' = id r'
  ∧ Term r' = Term (reset r (u64 (Term r + 1)))
  ∧ Term r' = u64 (Term r + 1)
  ∧ Lead r' = None_
  ∧ votes r' = Some ∅
  ∧ ∀ k, votes_at r' k = false.
Proof.
  destruct (becomeCandidate_fields r) as (HS&HT&HV&HL&_&_&Hv&_&Hid&_).
  cbv zeta in *. rewrite reset_Term, Hid.
  unfold votes_at, votes_map. rewrite Hv. by repeat split.
Qed.

(** C7, as the specification words it, fails: a follower that becomes
    candidate has [Vote = id] but [votes[id]] is not [true]. *)
Lemma becomeCandidate_records_no_self_vote :
  let r := node StateFollower 0 0 0 emptyLog None in
  let r' := becomeCandidate r in
  ¬ (Vote r' = id r' ∧ votes_at r' (id r') = true).
Proof.
  intros r r' [_ H].
  assert (votes_at r' (id r') = false) as E by (vm_compute; reflexivity).
  congruence.
Qed.

(** *** The vote tally *)

Lemma poll_granted (r : Raft) (from : Z) (v : gmap Z bool) :
  votes r = Some v →
  poll r from true =
  Ok (set_votes r (Some (<[from := true]> v)),
      bool_decide (len (<[from := true]> v) > 1 + len (Prs r) `quot` 2)).
Proof.
  intros Hv. unfold poll. simpl. rewrite Hv.
  unfold votes_map. simpl. by case_decide; case_bool_decide.
Qed.

Lemma poll_denied (r : Raft) (from : Z) : poll r from false = Ok (r, false).
Proof. reflexivity. Qed.

(** C9.  Polling a granted vote of the same peer twice: the second call
    leaves the node, and with it the votes map, as the first call left
    it, and returns what the first call returned.  The map holds one
    entry for the peer, so its size, which [poll] compares with the
    quorum, is the same after both calls. *)
Theorem poll_granted_idempotent (r : Raft) (from : Z) (v : gmap Z bool) :
  votes r = Some v →
  ∃ r1 won,
    poll r from true = Ok (r1, won)
    ∧ poll r1 from true = Ok (r1, won)
    ∧ votes r1 = Some (<[from := true]> v)
    ∧ len (votes_map r1) = len (<[from := true]> v).
Proof.
  intros Hv.
  set (v1 := <[from := true]> v).
  set (r1 := set_votes r (Some v1)).
  exists r1, (bool_decide (len v1 > 1 + len (Prs r) `quot` 2)).
  rewrite (poll_granted r from v Hv).
  rewrite (poll_granted r1 from v1 eq_refl).
  replace (<[from := true]> v1) with v1 by (subst v1; by rewrite insert_insert_eq).
  replace (set_votes r1 (Some v1)) with r1 by (by destruct r).
  by repeat split.
Qed.

Lemma poll_granted_idempotent_candidate :
  let r := node StateCandidate 1 1 0 emptyLog (Some {[1 := true]}) in
  ∃ r1 won,
    poll r 2 true = Ok (r1, won)
    ∧ poll r1 2 true = Ok (r1, won)
    ∧ votes r1 = Some (<[2 := true]> {[1 := true]})
    ∧ len (votes_map r1) = len (<[2 := true]> ({[1 := true]} : gmap Z bool)).
Proof.
  intros r. apply (poll_granted_idempotent r 2 {[1 := true]}). reflexivity.
Defined.

(** *** Campaigning *)

Lemma newRaft_fields (c : Config) (r : Raft) :
  newRaft c = Ok r →
  id r = ID c ∧ dom (Prs r) = list_to_set (peers c) ∧ Term r = 0
  ∧ State r = StateFollower.
Proof.
  unfold newRaft. destruct (validate c); [done|].
  destruct (Storage_ c) as [st|]; [|done].
  intros [= <-].
  match goal with |- context [foldl ?f ?a ?l] => set (step := f); set (r0 := a) end.
  assert (∀ l a, id (foldl step a l) = id a ∧ Term (foldl step a l) = Term a
                 ∧ dom (Prs (foldl step a l)) = list_to_set l ∪ dom (Prs a)) as Hfold.
  { induction l as [|p l IH]; intros a; simpl.
    - split; [done|]. split; [done|]. by rewrite (left_id_L ∅ (∪)).
    - destruct (IH (step a p)) as (E1&E2&E3). rewrite E1, E2, E3.
      split; [done|]. split; [done|].
      subst step. simpl. rewrite dom_insert_L.
      by rewrite (assoc_L (∪)), (comm_L (∪) (list_to_set l) {[p]}). }
  destruct (Hfold (peers c) r0) as (E1&E2&E3).
  destruct (becomeFollower_fields (foldl step r0 (peers c)) (Term (foldl step r0 (peers c))) None_)
    as (HS&HT&_&_&_&_&_&_&Hid&HP).
  rewrite Hid, HP, HT, HS, E1, E2, E3. split; [done|]. split; [|done].
  subst r0. simpl. rewrite dom_empty_L. by rewrite (right_id_L ∅ (∪)).
Qed.

(** C10.  A campaign broadcasts RequestVote to every id of the [Prs]
    table; [newRaft] puts the whole bootstrap peer list into [Prs], the
    node's own id with it, so the queue then holds a RequestVote from
    the node to itself next to those for the other peers. *)
Theorem campaign_requests_vote_from_self (r : Raft) :
  id r ∈ dom (Prs r) →
  let r' := campaign r in
  (∃ m, m ∈ msgs r' ∧ pb.MsgType m = pb.MsgRequestVote
        ∧ pb.To m = id r' ∧ pb.From m = id r' ∧ pb.Term m = Term r')
  ∧ (∀ p, p ∈ dom (Prs r) → voteRequest r' p ∈ msgs r').
Proof.
  intros Hself r'.
  destruct (campaign_fields r) as (_&HT&_&_&_&Hid&_&HL).
  destruct (becomeCandidate_fields r) as (_&HT'&_&_&_&_&_&_&Hid'&_&HL').
  assert (∀ p, p ∈ dom (Prs r) → voteRequest r' p ∈ msgs r') as Hall.
  { intros p Hp. subst r'.
    rewrite (voteRequest_ext (campaign r) (becomeCandidate r)) by congruence.
    rewrite campaign_unfold. cbn [msgs set_msgs].
    apply elem_of_app. right.
    apply elem_of_dom in Hp as [x Hx].
    apply list_elem_of_fmap. exists p. split; [reflexivity|].
    apply list_elem_of_fmap. exists (p, x). split; [reflexivity|].
    by apply elem_of_map_to_list. }
  split; [|exact Hall].
  exists (voteRequest r' (id r')). split.
  - apply Hall. subst r'. by rewrite Hid.
  - by repeat split.
Qed.

Lemma campaign_requests_vote_from_self_bootstrap :
  let r := node StateFollower 0 0 0 emptyLog None in
  newRaft bootstrap = Ok r
  ∧ (let r' := campaign r in
     (∃ m, m ∈ msgs r' ∧ pb.MsgType m = pb.MsgRequestVote
           ∧ pb.To m = id r' ∧ pb.From m = id r' ∧ pb.Term m = Term r')
     ∧ (∀ p, p ∈ dom (Prs r) → voteRequest r' p ∈ msgs r')).
Proof.
  intros r. split; [by vm_compute|].
  apply (campaign_requests_vote_from_self r).
  apply elem_of_dom. exists (mkProgress 0 0). by vm_compute.
Defined.

(** *** Votes, step-downs and proposals as the code handles them *)

(** At equal term a RequestVote is granted exactly when [canVote] holds;
    [m.LogTerm] and [m.Index] are not looked at.  Either reply carries
    the node's term. *)
Lemma Step_RequestVote_equal_term (r : Raft) (m : pb.Message) :
  pb.MsgType m = pb.MsgRequestVote →
  pb.Term m = Term r →
  Step r m =
  Ok (if canVote r m
      then set_Vote (set_electionElapsed (send r (voteResponse r (pb.From m) false)) 0)
             (pb.From m)
      else send r (voteResponse r (pb.From m) true), None).
Proof.
  intros Ht HT. unfold Step, stepTerm.
  assert (Some r = Some r → stepType r m = Ok
    (if canVote r m
     then set_Vote (set_electionElapsed (send r (voteResponse r (pb.From m) false)) 0)
            (pb.From m)
     else send r (voteResponse r (pb.From m) true), None)) as H.
  { intros _. unfold stepType. rewrite Ht. by destruct (canVote r m). }
  case_decide; [by apply H|].
  rewrite decide_False by lia. rewrite decide_False by lia. by apply H.
Qed.

(** C1, at a failing input.  A follower at term 2 that has not voted and
    knows no leader, whose log ends at index 5 with term 2, receives a
    RequestVote of term 2 from peer 2 whose log ends at index 1 with
    term 1.  The candidate's log is not as up-to-date as the node's, yet
    the node grants: it queues a reply with [Reject = false] and sets
    [Vote = 2]. *)
Theorem Step_RequestVote_grants_to_stale_log :
  let r := node StateFollower 2 0 0 (mkRaftLog 5 2) None in
  let m := {| pb.MsgType := pb.MsgRequestVote; pb.To := 1; pb.From := 2;
              pb.Term := 2; pb.LogTerm := 1; pb.Index := 1; pb.Entries := [];
              pb.Commit := 0; pb.Snapshot := None; pb.Reject := false |} in
  ¬ logUpToDate r m
  ∧ Step r m = Ok (set_Vote (set_msgs r [voteResponse r 2 false]) 2, None)
  ∧ pb.Reject (voteResponse r 2 false) = false.
Proof.
  intros r m. split; [|split].
  - unfold logUpToDate. simpl. lia.
  - vm_compute. reflexivity.
  - reflexivity.
Qed.

(** C2, at a failing input.  In a cluster of three the tally holds the
    candidate's own vote; the granted vote of peer 2 is recorded, which
    makes two grants, more than ⌊3/2⌋ = 1: the specification's tally has
    [Won], but [poll] answers [false], since it asks for more than
    [1 + 3/2 = 2] entries.  A denied vote is not recorded at all. *)
Theorem poll_misses_majority_of_three :
  let r := node StateCandidate 1 1 0 emptyLog (Some {[1 := true]}) in
  let v := <[2 := true]> ({[1 := true]} : gmap Z bool) in
  poll r 2 true = Ok (set_votes r (Some v), false)
  ∧ granted v = 2
  ∧ len (Prs r) `quot` 2 = 1
  ∧ tallyResult v (len (Prs r)) = Won
  ∧ poll r 3 false = Ok (r, false).
Proof. intros r v. repeat split; vm_compute; reflexivity. Qed.

(** A message of a higher term that comes from a leader makes the node a
    follower of the sender at that term, and nothing more: [Vote] is
    what it was. *)
Lemma Step_higher_term_from_leader (r : Raft) (m : pb.Message) :
  0 ≤ Term r →
  pb.Term m > Term r →
  pb.MsgType m = pb.MsgAppend ∨ pb.MsgType m = pb.MsgHeartbeat
    ∨ pb.MsgType m = pb.MsgSnapshot →
  Step r m = Ok (becomeFollower r (pb.Term m) (pb.From m), None)
  ∧ Vote (becomeFollower r (pb.Term m) (pb.From m)) = Vote r.
Proof.
  intros H0 Hhigher Ht.
  destruct (becomeFollower_fields r (pb.Term m) (pb.From m)) as (HS&_&_&HV&_).
  split; [|exact HV].
  unfold Step, stepTerm.
  rewrite decide_False by lia. rewrite decide_True by done.
  replace (bool_decide (pb.MsgType m = pb.MsgRequestVote)) with false
    by (symmetry; apply bool_decide_eq_false; intros E; rewrite E in Ht;
        destruct Ht as [?|[?|?]]; discriminate).
  rewrite decide_True by done. cbn [andb].
  revert HS. generalize (becomeFollower r (pb.Term m) (pb.From m)). intros f HS.
  unfold stepType, stepFollower. rewrite HS.
  by destruct Ht as [-> | [-> | ->]].
Qed.

(** C3, at a failing input (scenario S4).  A leader at term 3, which
    voted for itself, receives [Heartbeat{From=7, Term=5}].  It becomes a
    follower at term 5 with [Lead = 7] and an idle election timer, but
    its [Vote] is still 1, not none: [becomeFollower] calls [reset] with
    the node's own term. *)
Theorem Step_higher_term_Heartbeat_keeps_Vote :
  let r := node StateLeader 3 1 1 emptyLog (Some {[1 := true]}) in
  let m := message pb.MsgHeartbeat 7 1 5 in
  Step r m = Ok (node StateFollower 5 1 7 emptyLog (Some {[1 := true]}), None)
  ∧ Vote (node StateFollower 5 1 7 emptyLog (Some {[1 := true]})) ≠ None_.
Proof. intros r m. split; [vm_compute; reflexivity | discriminate]. Qed.

(** [Step] never returns an error. *)
Lemma Step_returns_nil (r r' : Raft) (m : pb.Message) (e : option error) :
  Step r m = Ok (r', e) → e = None.
Proof.
  unfold Step. destruct (stepTerm r m) as [r1|]; [|by intros [= _ <-]].
  unfold stepType.
  destruct (pb.MsgType m); try (by intros [= _ <-]);
    try (destruct (canVote r1 m); by intros [= _ <-]);
    (destruct (State r1);
     [ destruct (stepFollower r1 m) as [[??]|]
     | destruct (stepCandidate r1 m) as [[??]|]
     | destruct (stepLeader r1 m) as [[??]|] ];
     simpl; by intros [= _ <-]).
Qed.

(** C6, at failing inputs.  A proposal reaches a follower that knows no
    leader, and a candidate: in both cases [Step] returns [nil], not
    [ErrProposalDropped], and leaves the node as it was. *)
Theorem Step_Propose_returns_nil :
  let f := node StateFollower 1 0 0 emptyLog None in
  let c := node StateCandidate 1 1 0 emptyLog (Some ∅) in
  let m := message pb.MsgPropose 1 1 0 in
  Lead f = None_
  ∧ Step f m = Ok (f, None)
  ∧ Step c m = Ok (c, None).
Proof. intros f c m. repeat split; vm_compute; reflexivity. Qed.

(** C8, at failing inputs.  A candidate at term 1 receives a message of
    term 1 from peer 2.  A Heartbeat makes it a follower of peer 2; an
    Append or a Snapshot leaves it a candidate without a leader. *)
Theorem Step_candidate_ignores_Append_and_Snapshot :
  let r := node StateCandidate 1 1 0 emptyLog (Some ∅) in
  Step r (message pb.MsgHeartbeat 2 1 1)
    = Ok (node StateFollower 1 1 2 emptyLog (Some ∅), None)
  ∧ Step r (message pb.MsgAppend 2 1 1) = Ok (r, None)
  ∧ Step r (message pb.MsgSnapshot 2 1 1) = Ok (r, None).
Proof. intros r. repeat split; vm_compute; reflexivity. Qed.

(** *** The term along a trace *)

Lemma sound_becomeFollower (r : Raft) (term lead : Z) :
  0 ≤ term → sound (becomeFollower r term lead).
Proof.
  intros H. destruct (becomeFollower_fields r term lead) as (HS&HT&_).
  split; [by rewrite HT|]. by rewrite HS.
Qed.

Lemma sound_becomeCandidate (r : Raft) : sound (becomeCandidate r).
Proof.
  destruct (becomeCandidate_fields r) as (_&HT&_&_&_&_&Hv&_).
  split; [rewrite HT; apply u64_nonneg|]. by rewrite Hv.
Qed.

Lemma sound_campaign (r : Raft) : sound (campaign r).
Proof.
  destruct (campaign_fields r) as (_&HT&_&_&Hv&_).
  split; [rewrite HT; apply u64_nonneg|]. by rewrite Hv.
Qed.

Lemma sound_becomeLeader (r : Raft) : sound r → sound (becomeLeader r).
Proof.
  intros [H0 _]. destruct (becomeLeader_fields r) as (HS&HT&_).
  split; [by rewrite HT|]. by rewrite HS.
Qed.

Lemma hup_spec (r : Raft) :
  sound r → sound (hup r) ∧ (Term r < MaxUint64 → Term r ≤ Term (hup r)).
Proof.
  intros Hr. unfold hup. case_decide; [split; [done|lia]|].
  split; [apply sound_campaign|].
  intros Hmax. destruct (campaign_fields r) as (_&->&_).
  destruct Hr as [H0 _]. rewrite u64_succ; lia.
Qed.

Lemma poll_spec (r : Raft) (from : Z) (vote : bool) :
  votes r ≠ None →
  ∃ r' b, poll r from vote = Ok (r', b)
          ∧ Term r' = Term r ∧ State r' = State r ∧ votes r' ≠ None.
Proof.
  intros Hv. destruct vote.
  - destruct (votes r) as [v|] eqn:E; [|done].
    rewrite (poll_granted r from v E). by eexists _, _.
  - rewrite poll_denied. by exists r, false.
Qed.

Lemma stepCandidate_spec (r : Raft) (m : pb.Message) :
  sound r → State r = StateCandidate → 0 ≤ pb.Term m →
  ∃ r' e, stepCandidate r m = Ok (r', e) ∧ sound r'
          ∧ ((pb.MsgType m = pb.MsgHeartbeat → Term r ≤ pb.Term m) → Term r ≤ Term r').
Proof.
  intros Hr Hs Hm. unfold stepCandidate.
  destruct (pb.MsgType m) eqn:Ht;
    try (exists r, None; split; [reflexivity|split; [done|lia]]).
  - destruct Hr as [H0 Hv].
    destruct (poll_spec r (pb.From m) (negb (pb.Reject m)) (Hv Hs)) as (r1&b&->&HT&HS&Hv1).
    cbn [bind]. destruct b.
    + exists (becomeLeader r1), None. split; [done|].
      destruct (becomeLeader_fields r1) as (_&HT'&_).
      split; [apply sound_becomeLeader; split; [lia|done]|]. lia.
    + exists r1, None. split; [done|]. split; [split; [lia|done]|lia].
  - exists (becomeFollower r (pb.Term m) (pb.From m)), None.
    split; [done|]. split; [by apply sound_becomeFollower|].
    destruct (becomeFollower_fields r (pb.Term m) (pb.From m)) as (_&->&_).
    intros H. by apply H.
Qed.

Lemma stepType_spec (r : Raft) (m : pb.Message) :
  sound r → 0 ≤ pb.Term m →
  ∃ r', stepType r m = Ok (r', None) ∧ sound r'
        ∧ (Term r < MaxUint64 →
           (pb.MsgType m = pb.MsgHeartbeat → State r = StateCandidate → Term r ≤ pb.Term m) →
           Term r ≤ Term r').
Proof.
  intros Hr Hm.
  assert (∀ t, pb.MsgType m = t → t ≠ pb.MsgHup → t ≠ pb.MsgRequestVote →
    ∃ r', match State r with
      | StateLeader => let* (r, _) := stepLeader r m in Ok (r, @None error)
      | StateCandidate => let* (r, _) := stepCandidate r m in Ok (r, @None error)
      | StateFollower => let* (r, _) := stepFollower r m in Ok (r, @None error)
      end = Ok (r', None) ∧ sound r'
        ∧ (Term r < MaxUint64 →
           (pb.MsgType m = pb.MsgHeartbeat → State r = StateCandidate → Term r ≤ pb.Term m) →
           Term r ≤ Term r')) as Hrole.
  { intros t Ht Hhup Hrv. destruct (State r) eqn:Hs.
    - exists r. unfold stepFollower. rewrite Ht.
      split; [by destruct t|]. split; [done|lia].
    - destruct (stepCandidate_spec r m Hr Hs Hm) as (r'&e&->&Hr'&HT).
      exists r'. split; [done|]. split; [done|]. intros _ H. apply HT. auto.
    - exists r. split; [done|]. split; [done|lia]. }
  unfold stepType.
  destruct (pb.MsgType m) eqn:Ht; try (by apply (Hrole _ eq_refl)).
  - exists (hup r). split; [done|]. destruct (hup_spec r Hr) as [? HT]. split; [done|auto].
  - destruct Hr as [H0 Hv]. destruct (canVote r m).
    + eexists. split; [reflexivity|]. split; [split; [exact H0|exact Hv]|]. cbn. lia.
    + eexists. split; [reflexivity|]. split; [split; [exact H0|exact Hv]|]. cbn. lia.
Qed.

Lemma stepTerm_cases (r : Raft) (m : pb.Message) :
  stepTerm r m = None
  ∨ (stepTerm r m = Some r ∧ (pb.Term m = 0 ∨ pb.Term m = Term r))
  ∨ (∃ lead, stepTerm r m = Some (becomeFollower r (pb.Term m) lead)
             ∧ pb.Term m > Term r).
Proof.
  unfold stepTerm.
  case_decide as H0; [right; left; auto|].
  case_decide as Hhi.
  - destruct (bool_decide _ && inLease r); [by left|].
    right; right. case_decide; eauto.
  - case_decide; [by left|]. right; left. split; [done|right; lia].
Qed.

Lemma Step_spec (r : Raft) (m : pb.Message) :
  sound r →
  ∃ r', Step r m = Ok (r', None) ∧ sound r'
        ∧ (Term r < MaxUint64 → pb.Term m < MaxUint64 → ¬ zeroTermHeartbeat m →
           Term r ≤ Term r').
Proof.
  intros Hr. unfold Step.
  destruct (stepTerm_cases r m) as [-> | [[-> Hm] | (lead & -> & Hhi)]].
  - exists r. split; [done|]. split; [done|lia].
  - assert (0 ≤ pb.Term m) as Hm0 by (destruct Hr; lia).
    destruct (stepType_spec r m Hr Hm0) as (r' & -> & Hr' & HT).
    exists r'. split; [done|]. split; [done|].
    intros Hmax _ Hz. apply HT; [done|].
    intros Hhb _. destruct Hm as [Hm|Hm]; [|lia].
    exfalso. apply Hz. by split.
  - assert (0 ≤ pb.Term m) as Hm0 by (destruct Hr; lia).
    pose proof (sound_becomeFollower r (pb.Term m) lead Hm0) as Hf.
    destruct (becomeFollower_fields r (pb.Term m) lead) as (HS&HT&_).
    revert Hf HS HT. generalize (becomeFollower r (pb.Term m) lead). intros f Hf HS HT.
    destruct (stepType_spec f m Hf Hm0) as (r' & -> & Hr' & HT').
    exists r'. split; [done|]. split; [done|].
    intros _ Hmax _. rewrite HT, HS in HT'.
    assert (pb.Term m ≤ Term r') by (apply HT'; [done|]; intros _ ?; discriminate).
    lia.
Qed.

Lemma tick_spec (r : Raft) :
  sound r →
  ∃ r', tick r = Ok r' ∧ sound r' ∧ (Term r < MaxUint64 → Term r ≤ Term r').
Proof.
  intros Hr.
  assert (∃ r', tickElection r = Ok r' ∧ sound r'
                ∧ (Term r < MaxUint64 → Term r ≤ Term r')) as Hel.
  { unfold tickElection.
    assert (sound (set_electionElapsed r (int64 (electionElapsed r + 1)))) as Hr1 by exact Hr.
    assert (Term (set_electionElapsed r (int64 (electionElapsed r + 1))) = Term r) as HT1
      by reflexivity.
    revert Hr1 HT1. generalize (set_electionElapsed r (int64 (electionElapsed r + 1))).
    intros r1 Hr1 HT1. case_decide.
    - destruct (Step_spec r1 (hupMessage r1) Hr1) as (r' & -> & Hr' & HT).
      exists r'. split; [done|]. split; [done|].
      intros Hmax. rewrite <- HT1. apply HT; [lia|done|].
      by intros [? _].
    - exists r1. split; [done|]. split; [done|lia]. }
  unfold tick. destruct (State r); try exact Hel.
  exists r. split; [done|]. split; [done|lia].
Qed.

Lemma perform_spec (r : Raft) (k : call) :
  sound r →
  ∃ r', perform r k = Ok r' ∧ sound r'
        ∧ (Term r < MaxUint64 → regular k → Term r ≤ Term r').
Proof.
  intros Hr. destruct k as [m|]; simpl.
  - destruct (Step_spec r m Hr) as (r' & -> & Hr' & HT).
    exists r'. split; [done|]. split; [done|]. intros Hmax [? ?]. by apply HT.
  - destruct (tick_spec r Hr) as (r' & -> & Hr' & HT).
    exists r'. split; [done|]. split; [done|]. intros Hmax _. by apply HT.
Qed.

Lemma run_spec (cs : list call) (r : Raft) :
  sound r → ∃ r', run r cs = Ok r' ∧ sound r'.
Proof.
  revert r. induction cs as [|k cs IH]; intros r Hr; simpl.
  - by exists r.
  - destruct (perform_spec r k Hr) as (r1 & -> & Hr1 & _). simpl. by apply IH.
Qed.

Lemma newRaft_sound (c : Config) (r : Raft) : newRaft c = Ok r → sound r.
Proof.
  intros H. destruct (newRaft_fields c r H) as (_&_&HT&HS).
  split; [lia|]. by rewrite HS.
Qed.

(** X16.  No trace from [newRaft] panics, and a candidate it leads to
    has an allocated tally, which is where [stepCandidate] calls
    [poll]. *)
Lemma run_returns (c : Config) (r0 : Raft) (cs : list call) :
  newRaft c = Ok r0 →
  ∃ r, run r0 cs = Ok r ∧ (State r = StateCandidate → is_Some (votes r)).
Proof.
  intros Hnew.
  destruct (run_spec cs r0 (newRaft_sound c r0 Hnew)) as (r & Hrun & _ & Hv).
  exists r. split; [done|]. intros Hs. specialize (Hv Hs).
  by destruct (votes r).
Qed.

Lemma run_returns_bootstrap :
  let r0 := node StateFollower 0 0 0 emptyLog None in
  ∃ r, run r0 [CallStep (hupMessage r0); CallTick] = Ok r
       ∧ (State r = StateCandidate → is_Some (votes r)).
Proof.
  intros r0. apply (run_returns bootstrap r0). vm_compute. reflexivity.
Defined.




(** The other way for the term to fall: [r.Term + 1] wraps around. *)
Lemma Term_wraps_at_MaxUint64 :
  let r := node StateFollower MaxUint64 0 0 emptyLog None in
  ∃ r', perform r (CallStep (hupMessage r)) = Ok r'
        ∧ State r' = StateCandidate ∧ Term r' = 0.
Proof.
  intros r. exists (campaign r).
  repeat split; vm_compute; reflexivity.
Qed.

(** *** The shape of a step *)

Lemma stepType_handled (r r' : Raft) (m : pb.Message) (e : option error) :
  stepType r m = Ok (r', e) → e = None ∧ handled m r r'.
Proof.
  unfold stepType.
  destruct (pb.MsgType m) eqn:Ht.
  all: try (destruct (State r) eqn:Hs;
            [ unfold stepFollower; rewrite Ht
            | unfold stepCandidate; rewrite Ht
            | unfold stepLeader ]).
  all: cbn [bind].
  all: try (intros [= <- <-]; split; [done|]; apply handled_ignore; by rewrite Ht).
  - unfold hup. intros [= <- <-]. split; [done|].
    case_decide; [apply handled_ignore; by rewrite Ht|by apply handled_campaign].
  - destruct (canVote r m) eqn:Hc; intros [= <- <-]; (split; [done|]).
    + by apply handled_grant.
    + by apply handled_deny.
  - destruct (pb.Reject m) eqn:Hrej; cbn [negb].
    + rewrite poll_denied. cbn [bind]. intros [= <- <-]. split; [done|].
      apply handled_ignore; by rewrite Ht.
    + destruct (votes r) as [v|] eqn:Hv.
      * rewrite (poll_granted r _ v Hv). cbn [bind].
        case_bool_decide as Hq; intros [= <- <-]; (split; [done|]).
        -- by apply handled_win.
        -- by apply handled_poll.
      * unfold poll. cbn [negb]. rewrite Hv. done.
  - intros [= <- <-]. split; [done|]. by apply handled_follow.
Qed.

Lemma stepTerm_lowered (r r1 : Raft) (m : pb.Message) :
  stepTerm r m = Some r1 → lowered m r r1.
Proof.
  unfold stepTerm.
  case_decide as H0; [intros [= <-]; apply lowered_same; auto|].
  case_decide as Hhi.
  - destruct (bool_decide _ && inLease r); [done|].
    case_decide as Ht; intros [= <-]; apply lowered_stepDown; try done.
    + by rewrite decide_True.
    + by rewrite decide_False.
  - case_decide; [done|]. intros [= <-]. apply lowered_same. right. lia.
Qed.

Lemma stepTerm_dropped (r : Raft) (m : pb.Message) :
  stepTerm r m = None →
  pb.Term m ≠ 0 ∧ (pb.Term m < Term r
                   ∨ (pb.Term m > Term r ∧ pb.MsgType m = pb.MsgRequestVote
                      ∧ inLease r = true)).
Proof.
  unfold stepTerm.
  case_decide as H0; [done|]. split; [done|].
  case_decide as Hhi.
  - case_bool_decide as Ht; cbn [andb].
    + destruct (inLease r); [right; auto|]. revert H. by case_decide.
    + revert H. by case_decide.
  - revert H. case_decide; [left; lia|done].
Qed.

(** [Step] is: drop the message, or lower the node to the term of the
    message and handle the message. *)
Lemma Step_shape (r r' : Raft) (m : pb.Message) (e : option error) :
  Step r m = Ok (r', e) →
  e = None ∧ ((stepTerm r m = None ∧ r' = r)
              ∨ ∃ r1, lowered m r r1 ∧ handled m r1 r').
Proof.
  unfold Step. destruct (stepTerm r m) as [r1|] eqn:H1.
  - intros H. apply stepType_handled in H as [-> H]. split; [done|].
    right. exists r1. split; [by apply stepTerm_lowered|done].
  - intros [= <- <-]. split; [done|]. by left.
Qed.

(** *** Frame *)

Lemma configOf_reset (r : Raft) (t : Z) : configOf (reset r t) = configOf r.
Proof. unfold reset. by case_decide. Qed.

Lemma configOf_becomeFollower (r : Raft) (t lead : Z) :
  configOf (becomeFollower r t lead) = configOf r.
Proof. unfold becomeFollower. rewrite reset_same_term. reflexivity. Qed.

Lemma configOf_becomeLeader (r : Raft) : configOf (becomeLeader r) = configOf r.
Proof. unfold becomeLeader. rewrite reset_same_term. reflexivity. Qed.

Lemma configOf_becomeCandidate (r : Raft) : configOf (becomeCandidate r) = configOf r.
Proof. unfold becomeCandidate, reset. by case_decide. Qed.

Lemma configOf_set_msgs (r : Raft) (l : list pb.Message) :
  configOf (set_msgs r l) = configOf r.
Proof. reflexivity. Qed.

Lemma configOf_campaign (r : Raft) : configOf (campaign r) = configOf r.
Proof.
  rewrite campaign_unfold, configOf_set_msgs. apply configOf_becomeCandidate.
Qed.

Lemma handled_configOf (m : pb.Message) (r r' : Raft) :
  handled m r r' → configOf r' = configOf r.
Proof.
  intros [].
  - done.
  - apply configOf_campaign.
  - reflexivity.
  - reflexivity.
  - reflexivity.
  - by rewrite configOf_becomeLeader.
  - apply configOf_becomeFollower.
Qed.

Lemma lowered_configOf (m : pb.Message) (r r' : Raft) :
  lowered m r r' → configOf r' = configOf r.
Proof. intros []; [done|apply configOf_becomeFollower]. Qed.

Lemma Step_configOf (r r' : Raft) (m : pb.Message) (e : option error) :
  Step r m = Ok (r', e) → configOf r' = configOf r.
Proof.
  intros H. apply Step_shape in H as [_ [[_ ->] | (r1 & H1 & H2)]]; [done|].
  apply handled_configOf in H2. apply lowered_configOf in H1. congruence.
Qed.

Lemma tick_configOf (r r' : Raft) : tick r = Ok r' → configOf r' = configOf r.
Proof.
  assert (tickElection r = Ok r' → configOf r' = configOf r) as Hel.
  { unfold tickElection. case_decide.
    - destruct (Step _ _) as [[r1 e]|] eqn:HS; [|done]. cbn [bind].
      intros [= <-]. by apply Step_configOf in HS.
    - by intros [= <-]. }
  unfold tick. destruct (State r); try exact Hel.
  by intros [= <-].
Qed.

Lemma perform_configOf (r r' : Raft) (k : call) :
  perform r k = Ok r' → configOf r' = configOf r.
Proof.
  destruct k as [m|]; simpl.
  - destruct (Step r m) as [[r1 e]|] eqn:HS; [|done].
    intros [= <-]. by apply Step_configOf in HS.
  - apply tick_configOf.
Qed.

(** X11.  No [Step] and no [tick] changes the node's id, its peer table
    [Prs] (the progress of each peer included), its log view, its two
    timeouts, [leadTransferee] or [PendingConfIndex]. *)
Theorem perform_keeps_configuration (r r' : Raft) (k : call) :
  perform r k = Ok r' →
  id r' = id r ∧ Prs r' = Prs r ∧ Log r' = Log r
  ∧ heartbeatTimeout r' = heartbeatTimeout r
  ∧ electionTimeout r' = electionTimeout r
  ∧ leadTransferee r' = leadTransferee r
  ∧ PendingConfIndex r' = PendingConfIndex r.
Proof.
  intros H. apply perform_configOf in H.
  unfold configOf in H. by simplify_eq.
Qed.

Lemma perform_keeps_configuration_on_Hup :
  let r := node StateFollower 0 0 0 emptyLog None in
  let r' := campaign r in
  id r' = id r ∧ Prs r' = Prs r ∧ Log r' = Log r
  ∧ heartbeatTimeout r' = heartbeatTimeout r
  ∧ electionTimeout r' = electionTimeout r
  ∧ leadTransferee r' = leadTransferee r
  ∧ PendingConfIndex r' = PendingConfIndex r.
Proof.
  intros r r'.
  apply (perform_keeps_configuration r r' (CallStep (hupMessage r))).
  vm_compute. reflexivity.
Defined.

(** *** The outbound queue *)

Lemma handled_msgs (m : pb.Message) (r r' : Raft) :
  handled m r r' →
  ∃ l, msgs r' = msgs r ++ l ∧ Forall (λ x, pb.From x = id r) l
       ∧ (pb.MsgType m ≠ pb.MsgHup → pb.MsgType m ≠ pb.MsgRequestVote → l = []).
Proof.
  intros [].
  - exists []. by rewrite app_nil_r.
  - rewrite campaign_unfold. eexists. split; [reflexivity|]. split.
    + apply Forall_fmap, Forall_forall. intros p _. unfold voteRequest. cbn [pb.From].
      by destruct (becomeCandidate_fields r) as (_&_&_&_&_&_&_&_&->&_).
    + done.
  - eexists. split; [reflexivity|]. split; [by repeat constructor|done].
  - eexists. split; [reflexivity|]. split; [by repeat constructor|done].
  - exists []. by rewrite app_nil_r.
  - exists []. rewrite app_nil_r.
    by destruct (becomeLeader_fields (set_votes r (Some (<[pb.From m:=true]> v))))
      as (_&_&_&_&->&_).
  - exists []. rewrite app_nil_r.
    by destruct (becomeFollower_fields r (pb.Term m) (pb.From m)) as (_&_&_&_&_&_&_&->&_).
Qed.

Lemma lowered_msgs (m : pb.Message) (r r' : Raft) :
  lowered m r r' → msgs r' = msgs r ∧ id r' = id r.
Proof.
  intros [|lead]; [done|].
  by destruct (becomeFollower_fields r (pb.Term m) lead) as (_&_&_&_&_&_&_&->&->&_).
Qed.

Lemma Step_sends (r r' : Raft) (m : pb.Message) (e : option error) :
  Step r m = Ok (r', e) →
  ∃ l, msgs r' = msgs r ++ l ∧ Forall (λ x, pb.From x = id r) l.
Proof.
  intros H. apply Step_shape in H as [_ [[_ ->] | (r1 & H1 & H2)]].
  - exists []. by rewrite app_nil_r.
  - apply lowered_msgs in H1 as [E1 E2].
    apply handled_msgs in H2 as (l & E & Hl & _).
    exists l. by rewrite E, E1, <- E2.
Qed.

(** X12.  [Step] never takes a message off the outbound queue and never
    changes one that is on it: the queue after the call is the queue
    before it followed by the messages of this call, each stamped with
    the node's id as sender.  Only MsgHup and MsgRequestVote make the
    node send anything. *)
Theorem Step_appends_own_messages (r r' : Raft) (m : pb.Message) (e : option error) :
  Step r m = Ok (r', e) →
  ∃ l, msgs r' = msgs r ++ l
       ∧ Forall (λ x, pb.From x = id r) l
       ∧ (pb.MsgType m ≠ pb.MsgHup → pb.MsgType m ≠ pb.MsgRequestVote → l = []).
Proof.
  intros H. apply Step_shape in H as [_ [[_ ->] | (r1 & H1 & H2)]].
  - exists []. by rewrite app_nil_r.
  - apply lowered_msgs in H1 as [E1 E2].
    apply handled_msgs in H2 as (l & E & Hl & Hn).
    exists l. by rewrite E, E1, <- E2.
Qed.

Lemma Step_appends_own_messages_on_Hup :
  let r := node StateFollower 0 0 0 emptyLog None in
  let r' := campaign r in
  ∃ l, msgs r' = msgs r ++ l
       ∧ Forall (λ x, pb.From x = id r) l
       ∧ (pb.MsgType (hupMessage r) ≠ pb.MsgHup →
          pb.MsgType (hupMessage r) ≠ pb.MsgRequestVote → l = []).
Proof.
  intros r r'.
  apply (Step_appends_own_messages r r' (hupMessage r) None).
  vm_compute. reflexivity.
Defined.

(** *** Votes *)

Lemma u64_succ_neq (x : Z) : u64 (x + 1) ≠ x.
Proof.
  unfold u64. intros H.
  assert (0 ≤ x < 2 ^ 64) as Hx by (rewrite <- H; apply Z.mod_pos_bound; lia).
  destruct (decide (x = 2 ^ 64 - 1)) as [->|].
  - vm_compute in H. discriminate.
  - rewrite Z.mod_small in H by lia. lia.
Qed.

(** X9.  Within one term the vote is given once: a [Step] that leaves
    the term as it was leaves [Vote] as it was, or gives the vote, which
    had not been given, to the sender of a RequestVote. *)
Theorem Step_votes_once_per_term (r r' : Raft) (m : pb.Message) (e : option error) :
  0 ≤ Term r →
  pb.Term m < MaxUint64 →
  Step r m = Ok (r', e) →
  Term r' = Term r →
  Vote r' = Vote r
  ∨ (Vote r = None_ ∧ Vote r' = pb.From m ∧ pb.MsgType m = pb.MsgRequestVote).
Proof.
  intros H0 Hmax H HT.
  apply Step_shape in H as [_ [[_ ->] | (r1 & H1 & H2)]]; [by left|].
  destruct H1 as [Hsame | lead Hne Hhi Hlead].
  - destruct H2 as [ | ? Hl | Ht Hc | | v | v | ].
    + by left.
    + destruct (campaign_fields r) as (_&E&_). rewrite E in HT.
      by apply u64_succ_neq in HT.
    + unfold canVote in Hc. apply orb_true_iff in Hc as [Hc|Hc].
      * apply bool_decide_eq_true in Hc. left. by rewrite Hc.
      * apply andb_true_iff in Hc as [Hc _]. apply bool_decide_eq_true in Hc.
        right. by repeat split.
    + by left.
    + by left.
    + left. by destruct (becomeLeader_fields (set_votes r (Some (<[pb.From m:=true]> v))))
        as (_&_&->&_).
    + left. by destruct (becomeFollower_fields r (pb.Term m) (pb.From m)) as (_&_&_&->&_).
  - exfalso.
    destruct (becomeFollower_fields r (pb.Term m) lead) as (HS&E&_&_).
    revert H2 HS E. generalize (becomeFollower r (pb.Term m) lead). intros f H2 HS E.
    assert (Term r' = Term f ∨ Term r' = u64 (Term f + 1)) as [E'|E'].
    { destruct H2 as [ | | | | v | v ? Hs | ? Hs ].
      - by left.
      - right. by destruct (campaign_fields f) as (_&->&_).
      - by left.
      - by left.
      - by left.
      - congruence.
      - congruence. }
    + lia.
    + rewrite u64_succ in E' by lia. lia.
Qed.

Lemma Step_votes_once_per_term_on_grant :
  let r := node StateFollower 2 0 0 emptyLog None in
  let m := message pb.MsgRequestVote 2 1 2 in
  let r' := grantVote r m in
  Vote r' = Vote r
  ∨ (Vote r = None_ ∧ Vote r' = pb.From m ∧ pb.MsgType m = pb.MsgRequestVote).
Proof.
  intros r m r'.
  apply (Step_votes_once_per_term r r' m None).
  - vm_compute. discriminate.
  - vm_compute. reflexivity.
  - vm_compute. reflexivity.
  - reflexivity.
Defined.

Lemma becomeLeader_Lead (r : Raft) : Lead (becomeLeader r) = None_.
Proof. unfold becomeLeader. by rewrite reset_same_term. Qed.

Lemma handled_selfVoted (m : pb.Message) (r r' : Raft) :
  id r ≠ None_ → selfVoted r → handled m r r' → selfVoted r'.
Proof.
  intros Hid Hr H. destruct H as [ | | Ht Hc | | v | v ? Hs | ].
  - done.
  - intros _. by destruct (campaign_fields r) as (_&_&->&->&_&->&_).
  - intros Hs. destruct (Hr Hs) as [HV HL]. split; [|exact HL].
    unfold canVote in Hc. apply orb_true_iff in Hc as [Hc|Hc].
    + apply bool_decide_eq_true in Hc. simpl. congruence.
    + apply andb_true_iff in Hc as [Hc _]. apply bool_decide_eq_true in Hc. congruence.
  - exact Hr.
  - exact Hr.
  - intros _.
    destruct (becomeLeader_fields (set_votes r (Some (<[pb.From m:=true]> v))))
      as (_&_&->&_&_&->&_).
    rewrite becomeLeader_Lead. split; [|done]. apply Hr. by rewrite Hs.
  - intros Hs. by destruct (becomeFollower_fields r (pb.Term m) (pb.From m)) as (E&_).
Qed.

Lemma lowered_selfVoted (m : pb.Message) (r r' : Raft) :
  selfVoted r → lowered m r r' → selfVoted r'.
Proof.
  intros Hr [|lead]; [done|].
  intros Hs. by destruct (becomeFollower_fields r (pb.Term m) lead) as (E&_).
Qed.

Lemma perform_selfVoted (r r' : Raft) (k : call) :
  id r ≠ None_ → selfVoted r → perform r k = Ok r' → selfVoted r'.
Proof.
  intros Hid Hr.
  assert (∀ x m e, id x ≠ None_ → selfVoted x → Step x m = Ok (r', e) → selfVoted r')
    as HStep.
  { intros x m e Hx Hsv H.
    apply Step_shape in H as [_ [[_ ->] | (r1 & H1 & H2)]]; [done|].
    destruct (lowered_msgs m x r1 H1) as [_ E].
    apply (handled_selfVoted m r1); [congruence| |done].
    by apply (lowered_selfVoted m x). }
  destruct k as [m|]; simpl.
  - destruct (Step r m) as [[r1 e]|] eqn:HS; [|done]. intros [= <-]. by eapply HStep.
  - assert (tickElection r = Ok r' → selfVoted r') as Hel.
    { unfold tickElection. case_decide.
      - destruct (Step _ _) as [[r1 e]|] eqn:HS; [|done]. cbn [bind]. intros [= <-].
        eapply HStep; [| |exact HS]; [exact Hid|exact Hr].
      - by intros [= <-]. }
    unfold tick. destruct (State r); try exact Hel. by intros [= <-].
Qed.

(** X14.  Along every trace from [newRaft], a node that is a candidate
    or a leader has [Vote] equal to its own id and [Lead] equal to none:
    a leader does not record itself as leader. *)
Theorem candidates_and_leaders_voted_for_themselves
    (c : Config) (r0 r : Raft) (cs : list call) :
  newRaft c = Ok r0 →
  run r0 cs = Ok r →
  State r ≠ StateFollower →
  Vote r = id r ∧ Lead r = None_ ∧ id r = ID c ∧ id r ≠ None_.
Proof.
  intros Hnew Hrun Hs.
  assert (id r0 = ID c ∧ ID c ≠ None_ ∧ selfVoted r0) as (Hid & Hne & H0).
  { destruct (newRaft_fields c r0 Hnew) as (E&_&_&HS).
    split; [done|]. split.
    - unfold newRaft, validate in Hnew. by case_decide.
    - intros Hf. by rewrite HS in Hf. }
  assert (id r = ID c ∧ selfVoted r) as [E Hr].
  { clear Hnew Hs. revert r0 Hid H0 Hrun.
    induction cs as [|k cs IH]; intros r0 Hid H0; simpl.
    - by intros [= <-].
    - destruct (perform r0 k) as [r1|] eqn:Hk; [|done]. simpl.
      apply IH.
      + apply perform_configOf in Hk. unfold configOf in Hk. congruence.
      + apply (perform_selfVoted r0 r1 k); [congruence|done|done]. }
  destruct (Hr Hs) as [HV HL]. repeat split; try done. congruence.
Qed.

Lemma candidates_and_leaders_voted_for_themselves_after_Hup :
  let r0 := node StateFollower 0 0 0 emptyLog None in
  let r := campaign r0 in
  Vote r = id r ∧ Lead r = None_ ∧ id r = ID bootstrap ∧ id r ≠ None_.
Proof.
  intros r0 r.
  apply (candidates_and_leaders_voted_for_themselves bootstrap r0 r
           [CallStep (hupMessage r0)]).
  - vm_compute. reflexivity.
  - vm_compute. reflexivity.
  - vm_compute. discriminate.
Defined.

(** *** How a node becomes leader *)

(** X10.  A [Step] makes a leader of a node that was none in one way
    only: the node is a candidate, the message is a granting
    RequestVoteResponse of the node's term (or of term 0), and with the
    sender's vote recorded the tally holds more than
    [1 + len(Prs)/2] entries.  Term and [Vote] are kept. *)
Theorem Step_elects_by_tally_only (r r' : Raft) (m : pb.Message) (e : option error) :
  Step r m = Ok (r', e) →
  State r' = StateLeader →
  State r ≠ StateLeader →
  State r = StateCandidate
  ∧ pb.MsgType m = pb.MsgRequestVoteResponse
  ∧ pb.Reject m = false
  ∧ (pb.Term m = 0 ∨ pb.Term m = Term r)
  ∧ Term r' = Term r ∧ Vote r' = Vote r
  ∧ votes_at r' (pb.From m) = true
  ∧ len (votes_map r') > 1 + len (Prs r) `quot` 2.
Proof.
  intros H HL Hn.
  apply Step_shape in H as [_ [[_ ->] | (r1 & H1 & H2)]]; [done|].
  destruct H1 as [Hsame | lead Hne Hhi Hlead].
  - destruct H2 as [ | | | | v ? Hs | v ? Hs ? Hv Hq | ? Hs ].
    + done.
    + by destruct (campaign_fields r) as (E&_); rewrite E in HL.
    + done.
    + done.
    + simpl in HL. congruence.
    + destruct (becomeLeader_fields (set_votes r (Some (<[pb.From m:=true]> v))))
        as (_&ET&EV&Ev&_).
      repeat split; try done.
      * unfold votes_at, votes_map. rewrite Ev. simpl. by rewrite lookup_insert_eq.
      * unfold votes_map. by rewrite Ev.
    + by destruct (becomeFollower_fields r (pb.Term m) (pb.From m)) as (E&_); rewrite E in HL.
  - exfalso.
    destruct (becomeFollower_fields r (pb.Term m) lead) as (HS&_).
    revert H2 HS. generalize (becomeFollower r (pb.Term m) lead). intros f H2 HS.
    destruct H2 as [ | | | | v ? Hs | v ? Hs | ? Hs ]; try congruence.
    + by destruct (campaign_fields f) as (E&_); rewrite E in HL.
    + simpl in HL. congruence.
    + simpl in HL. congruence.
Qed.

Lemma Step_elects_by_tally_only_third_vote :
  let v : gmap Z bool := {[1 := true; 2 := true]} in
  let r := node StateCandidate 1 1 0 emptyLog (Some v) in
  let m := message pb.MsgRequestVoteResponse 3 1 1 in
  let r' := becomeLeader (set_votes r (Some (<[3 := true]> v))) in
  State r = StateCandidate
  ∧ pb.MsgType m = pb.MsgRequestVoteResponse
  ∧ pb.Reject m = false
  ∧ (pb.Term m = 0 ∨ pb.Term m = Term r)
  ∧ Term r' = Term r ∧ Vote r' = Vote r
  ∧ votes_at r' (pb.From m) = true
  ∧ len (votes_map r') > 1 + len (Prs r) `quot` 2.
Proof.
  intros v r m r'.
  apply (Step_elects_by_tally_only r r' m None).
  - vm_compute. reflexivity.
  - vm_compute. reflexivity.
  - vm_compute. discriminate.
Defined.

(** *** Messages that are not handled *)

(** X6.  A message that carries a term other than 0 and lower than the
    node's is dropped: [Step] returns [nil], the node is unchanged and
    nothing is sent, whatever the type of the message. *)
Theorem Step_drops_lower_term (r : Raft) (m : pb.Message) :
  pb.Term m ≠ 0 → pb.Term m < Term r → Step r m = Ok (r, None).
Proof.
  intros H0 Hlow. unfold Step, stepTerm.
  rewrite decide_False by done. rewrite decide_False by lia.
  by rewrite decide_True by done.
Qed.

Lemma Step_drops_lower_term_Append :
  let r := node StateFollower 3 0 2 emptyLog None in
  Step r (message pb.MsgAppend 2 1 1) = Ok (r, None).
Proof.
  intros r. apply (Step_drops_lower_term r (message pb.MsgAppend 2 1 1)).
  - vm_compute. discriminate.
  - vm_compute. reflexivity.
Defined.

(** X7.  A leader does nothing with a message of its own term, of a
    lower term or of term 0, unless it is a RequestVote: proposals,
    beats, responses and MsgHup leave it unchanged, nothing is sent and
    [Step] returns [nil]. *)
Theorem Step_leader_ignores (r : Raft) (m : pb.Message) :
  State r = StateLeader →
  pb.Term m = 0 ∨ pb.Term m ≤ Term r →
  pb.MsgType m ≠ pb.MsgRequestVote →
  Step r m = Ok (r, None).
Proof.
  intros Hs Hterm Ht. unfold Step.
  destruct (stepTerm r m) as [r1|] eqn:E; [|done].
  apply stepTerm_lowered in E. destruct E as [_|lead ? ?]; [|lia].
  unfold stepType, hup, stepLeader. rewrite Hs.
  rewrite decide_True by done.
  by destruct (pb.MsgType m).
Qed.

Lemma Step_leader_ignores_Propose :
  let r := node StateLeader 3 1 0 emptyLog (Some {[1 := true]}) in
  Step r (message pb.MsgPropose 1 1 0) = Ok (r, None).
Proof.
  intros r. apply (Step_leader_ignores r (message pb.MsgPropose 1 1 0)).
  - reflexivity.
  - left. reflexivity.
  - discriminate.
Defined.

(** *** The reply to a RequestVote *)

(** X8.  A RequestVote is dropped without a reply (lower term, or higher
    term while the lease holds), or answered with exactly one
    RequestVoteResponse to the sender, carrying the node's term after
    the step.  The vote is granted exactly when the node had voted for
    the sender, or had not voted and either knew no leader or the
    request has a higher term; a granted vote is recorded in [Vote] and
    resets the election timer, a denied one leaves [Vote] alone. *)
Theorem Step_answers_RequestVote (r r' : Raft) (m : pb.Message) (e : option error) :
  pb.MsgType m = pb.MsgRequestVote →
  Step r m = Ok (r', e) →
  (r' = r ∧ pb.Term m ≠ 0
   ∧ (pb.Term m < Term r ∨ (pb.Term m > Term r ∧ inLease r = true)))
  ∨ ∃ reject,
      msgs r' = msgs r ++ [voteResponse r' (pb.From m) reject]
      ∧ (reject = false → Vote r' = pb.From m ∧ electionElapsed r' = 0)
      ∧ (reject = true → Vote r' = Vote r ∧ Vote r ≠ pb.From m)
      ∧ (reject = false ↔
         Vote r = pb.From m
         ∨ (Vote r = None_
            ∧ (Lead r = None_ ∨ (pb.Term m ≠ 0 ∧ pb.Term m > Term r)))).
Proof.
  intros Ht H.
  apply Step_shape in H as [_ [[Hd ->] | (r1 & H1 & H2)]].
  { left. apply stepTerm_dropped in Hd as [? [?|(?&_&?)]]; auto. }
  right.
  assert (msgs r1 = msgs r ∧ Vote r1 = Vote r
          ∧ (Lead r1 = None_ ↔ Lead r = None_ ∨ (pb.Term m ≠ 0 ∧ pb.Term m > Term r)))
    as (Em & Ev & El).
  { destruct H1 as [Hsame | lead Hne Hhi Hlead].
    - split; [done|]. split; [done|]. split; [auto|]. intros [?|[? ?]]; [done|lia].
    - destruct (becomeFollower_fields r (pb.Term m) lead) as (_&_&EL&EV&_&_&_&EM&_).
      split; [done|]. split; [done|]. rewrite EL, Hlead.
      rewrite decide_False by (rewrite Ht; by intros [?|[?|?]]).
      split; [intros _; right; split; [done|lia]|done]. }
  clear H1. revert H2 Em Ev El. generalize r1. clear r1. intros r1 H2 Em Ev El.
  destruct H2 as [Hn | Hh | _ Hc | _ Hc | v Hx | v Hx | Hx ]; try congruence.
  - exists false. split; [by rewrite <- Em|]. split; [done|]. split; [done|].
    split; [intros _|done].
    unfold canVote in Hc. apply orb_true_iff in Hc as [Hc|Hc].
    + apply bool_decide_eq_true in Hc. left. congruence.
    + apply andb_true_iff in Hc as [Hc1 Hc2].
      apply bool_decide_eq_true in Hc1, Hc2. right. split; [congruence|by apply El].
  - exists true. split; [by rewrite <- Em|]. split; [done|].
    unfold canVote in Hc. apply orb_false_iff in Hc as [Hc1 Hc2].
    apply bool_decide_eq_false in Hc1.
    split; [intros _; split; [done|congruence]|].
    split; [done|]. intros [?|[HV HL]]; [congruence|].
    apply El in HL. apply andb_false_iff in Hc2 as [Hc2|Hc2];
      apply bool_decide_eq_false in Hc2; congruence.
Qed.

Lemma Step_answers_RequestVote_of_higher_term :
  let r := node StateFollower 2 3 0 emptyLog None in
  let m := message pb.MsgRequestVote 2 1 5 in
  let r' := denyVote (becomeFollower r 5 None_) m in
  (r' = r ∧ pb.Term m ≠ 0
   ∧ (pb.Term m < Term r ∨ (pb.Term m > Term r ∧ inLease r = true)))
  ∨ ∃ reject,
      msgs r' = msgs r ++ [voteResponse r' (pb.From m) reject]
      ∧ (reject = false → Vote r' = pb.From m ∧ electionElapsed r' = 0)
      ∧ (reject = true → Vote r' = Vote r ∧ Vote r ≠ pb.From m)
      ∧ (reject = false ↔
         Vote r = pb.From m
         ∨ (Vote r = None_
            ∧ (Lead r = None_ ∨ (pb.Term m ≠ 0 ∧ pb.Term m > Term r)))).
Proof.
  intros r m r'.
  apply (Step_answers_RequestVote r r' m None).
  - reflexivity.
  - vm_compute. reflexivity.
Defined.

(** *** The election timer *)

Lemma int64_small (x : Z) : - 2 ^ 63 ≤ x < 2 ^ 63 → int64 x = x.
Proof. intros H. unfold int64. rewrite Z.mod_small; lia. Qed.

Lemma set_electionElapsed_same (r : Raft) : set_electionElapsed r (electionElapsed r) = r.
Proof. by destruct r. Qed.

Lemma set_electionElapsed_twice (r : Raft) (a b : Z) :
  set_electionElapsed (set_electionElapsed r a) b = set_electionElapsed r b.
Proof. reflexivity. Qed.

Lemma run_app (r : Raft) (a b : list call) :
  run r (a ++ b) = bind (run r a) (λ r', run r' b).
Proof.
  revert r. induction a as [|k a IH]; intros r; simpl; [done|].
  destruct (perform r k); simpl; [apply IH|done].
Qed.

Lemma tick_counts (r : Raft) :
  State r ≠ StateLeader →
  - 2 ^ 63 ≤ electionElapsed r + 1 < 2 ^ 63 →
  electionElapsed r + 1 ≤ electionTimeout r →
  tick r = Ok (set_electionElapsed r (electionElapsed r + 1)).
Proof.
  intros Hs Hr Hq.
  assert (tickElection r = Ok (set_electionElapsed r (electionElapsed r + 1))) as H.
  { unfold tickElection. rewrite int64_small by done.
    rewrite decide_False; [done|]. simpl. lia. }
  unfold tick. by destruct (State r).
Qed.

Lemma tick_campaigns (r : Raft) :
  State r ≠ StateLeader →
  - 2 ^ 63 ≤ electionElapsed r + 1 < 2 ^ 63 →
  electionTimeout r ≤ electionElapsed r →
  tick r = Ok (campaign (set_electionElapsed r (electionElapsed r + 1))).
Proof.
  intros Hs Hr Hq.
  assert (tickElection r = Ok (campaign (set_electionElapsed r (electionElapsed r + 1))))
    as H.
  { unfold tickElection. rewrite int64_small by done.
    rewrite decide_True by (simpl; lia).
    set (r1 := set_electionElapsed r (electionElapsed r + 1)).
    assert (State r1 ≠ StateLeader) as Hs1 by exact Hs.
    clearbody r1.
    unfold Step, stepTerm. rewrite decide_True by done.
    unfold stepType, hup. cbn [hupMessage pb.MsgType bind].
    by rewrite decide_False. }
  unfold tick. by destruct (State r).
Qed.

Lemma ticks_count (n : nat) (r : Raft) :
  State r ≠ StateLeader →
  0 ≤ electionElapsed r →
  electionElapsed r + Z.of_nat n ≤ electionTimeout r →
  electionTimeout r < 2 ^ 63 →
  run r (replicate n CallTick)
  = Ok (set_electionElapsed r (electionElapsed r + Z.of_nat n)).
Proof.
  revert r. induction n as [|n IH]; intros r Hs H0 Hq Hmax.
  - simpl. by rewrite Z.add_0_r, set_electionElapsed_same.
  - cbn [replicate run perform].
    rewrite tick_counts by (done || lia). cbn [bind].
    rewrite IH; [|done|simpl; lia|simpl; lia|done].
    rewrite set_electionElapsed_twice. f_equal. f_equal. simpl. lia.
Qed.

(** X4.  A follower or candidate with an idle election timer only counts
    for its first [electionTimeout] ticks; tick number
    [electionTimeout + 1] makes it campaign: it is then a candidate at
    the next term that has voted for itself, and its timer is idle
    again. *)
Theorem ticks_until_campaign (r : Raft) :
  State r ≠ StateLeader →
  electionElapsed r = 0 →
  0 ≤ electionTimeout r < 2 ^ 63 - 1 →
  (∀ n : nat, Z.of_nat n ≤ electionTimeout r →
     run r (replicate n CallTick) = Ok (set_electionElapsed r (Z.of_nat n)))
  ∧ let r' := campaign (set_electionElapsed r (electionTimeout r + 1)) in
    run r (replicate (S (Z.to_nat (electionTimeout r))) CallTick) = Ok r'
    ∧ State r' = StateCandidate ∧ Term r' = u64 (Term r + 1) ∧ Vote r' = id r
    ∧ electionElapsed r' = 0.
Proof.
  intros Hs H0 Hmax. split.
  { intros n Hn. rewrite ticks_count by (done || lia). by rewrite H0. }
  intros r'. split.
  - replace (S (Z.to_nat (electionTimeout r)))
      with (Z.to_nat (electionTimeout r) + 1)%nat by lia.
    rewrite replicate_add, run_app.
    rewrite ticks_count by (done || lia).
    cbn [bind replicate run perform].
    rewrite tick_campaigns; [ | done | simpl; lia | simpl; lia ].
    cbn [bind]. subst r'. f_equal. f_equal.
    rewrite set_electionElapsed_twice. f_equal. simpl. lia.
  - subst r'.
    destruct (campaign_fields (set_electionElapsed r (electionTimeout r + 1)))
      as (E1&E2&E3&_).
    rewrite campaign_unfold.
    destruct (becomeCandidate_fields (set_electionElapsed r (electionTimeout r + 1)))
      as (_&_&_&_&E4&_).
    rewrite campaign_unfold in E1, E2, E3.
    repeat split; assumption.
Qed.

Lemma ticks_until_campaign_eleven :
  let r := node StateFollower 0 0 0 emptyLog None in
  (∀ n : nat, Z.of_nat n ≤ electionTimeout r →
     run r (replicate n CallTick) = Ok (set_electionElapsed r (Z.of_nat n)))
  ∧ let r' := campaign (set_electionElapsed r (electionTimeout r + 1)) in
    run r (replicate (S (Z.to_nat (electionTimeout r))) CallTick) = Ok r'
    ∧ State r' = StateCandidate ∧ Term r' = u64 (Term r + 1) ∧ Vote r' = id r
    ∧ electionElapsed r' = 0.
Proof.
  intros r. apply (ticks_until_campaign r).
  - discriminate.
  - reflexivity.
  - split; [vm_compute; discriminate | vm_compute; reflexivity].
Defined.

(** X5.  A leader's clock does nothing, [tickHeatbeat] being empty:
    after any number of ticks the node is what it was, and no heartbeat
    has been queued. *)
Theorem ticks_of_leader (n : nat) (r : Raft) :
  State r = StateLeader → run r (replicate n CallTick) = Ok r.
Proof.
  intros Hs. induction n as [|n IH]; [done|].
  cbn [replicate run perform]. unfold tick. rewrite Hs. exact IH.
Qed.

Lemma ticks_of_leader_five :
  let r := node StateLeader 3 1 0 emptyLog (Some {[1 := true]}) in
  run r (replicate 5 CallTick) = Ok r.
Proof. intros r. apply (ticks_of_leader 5 r). reflexivity. Defined.

(** *** Construction *)

(** X1.  [validate] accepts a configuration exactly when the id is not
    0, the heartbeat tick is positive, the election tick is greater than
    the heartbeat tick and a storage is given. *)
Theorem validate_accepts_iff (c : Config) :
  validate c = None ↔
  ID c ≠ None_ ∧ 0 < HeartbeatTick c ∧ HeartbeatTick c < ElectionTick c
  ∧ Storage_ c ≠ None.
Proof.
  unfold validate. repeat case_decide; split; try done.
  all: try (intros (?&?&?&?); first [contradiction | lia]).
  intros _. repeat split; first [assumption | lia].
Qed.

(** X2.  [newRaft] panics with the message of [validate] when the
    configuration is refused, and otherwise returns a follower at
    term 0: the term is not read from the storage. *)
Theorem newRaft_panics_on_invalid_config (c : Config) :
  match validate c with
  | Some err => newRaft c = Panic (Error err)
  | None => ∃ r, newRaft c = Ok r ∧ State r = StateFollower ∧ Term r = 0
  end.
Proof.
  destruct (validate c) as [err|] eqn:Hv.
  - unfold newRaft. by rewrite Hv.
  - assert (is_Some (Storage_ c)) as [st Hst].
    { unfold validate in Hv. repeat case_decide; try done.
      by destruct (Storage_ c). }
    destruct (newRaft c) as [r|msg] eqn:Hnew.
    + exists r. split; [done|]. by destruct (newRaft_fields c r Hnew) as (_&_&?&?).
    + unfold newRaft in Hnew. by rewrite Hv, Hst in Hnew.
Qed.

Lemma install_peers (l : list Z) (r : Raft) :
  foldl (λ r p, set_Prs r (<[p := mkProgress 0 0]> (Prs r))) r l
  = set_Prs r (foldl (λ P p, <[p := mkProgress 0 0]> P) (Prs r) l).
Proof.
  revert r. induction l as [|p l IH]; intros r; simpl.
  - by destruct r.
  - by rewrite IH.
Qed.

Lemma lookup_install_peers (l : list Z) (P : gmap Z Progress) (p : Z) :
  foldl (λ P p, <[p := mkProgress 0 0]> P) P l !! p
  = if decide (p ∈ l) then Some (mkProgress 0 0) else P !! p.
Proof.
  revert P. induction l as [|q l IH]; intros P; cbn [foldl].
  - destruct (decide (p ∈ [])) as [H|_]; [by apply elem_of_nil in H|done].
  - rewrite IH.
    destruct (decide (p ∈ l)) as [Hin|Hin], (decide (p ∈ q :: l)) as [Hin'|Hin'];
      try done.
    + exfalso. apply Hin'. by right.
    + apply elem_of_cons in Hin' as [->|?]; [|done]. by rewrite lookup_insert_eq.
    + rewrite lookup_insert_ne; [done|]. intros ->. apply Hin'. by left.
Qed.

Lemma newRaft_node (c : Config) (r : Raft) :
  newRaft c = Ok r →
  ∃ st, Storage_ c = Some st
        ∧ r = {| id := ID c; Term := 0; Vote := 0; Log := newLog st;
                 Prs := foldl (λ P p, <[p := mkProgress 0 0]> P) ∅ (peers c);
                 State := StateFollower; votes := None; msgs := []; Lead := None_;
                 heartbeatTimeout := HeartbeatTick c;
                 electionTimeout := ElectionTick c;
                 heartbeatElapsed := 0; electionElapsed := 0;
                 leadTransferee := 0; PendingConfIndex := 0 |}.
Proof.
  unfold newRaft. destruct (validate c); [done|].
  destruct (Storage_ c) as [st|]; [|done].
  intros [= <-]. exists st. split; [done|]. rewrite install_peers.
  unfold becomeFollower. by rewrite reset_same_term.
Qed.

(** X3.  The node [newRaft] returns is a follower at term 0 that has not
    voted and knows no leader, with idle timers, the timeouts of the
    configuration, an empty queue, a nil tally, the log view of the
    storage, and a zeroed [Progress] for exactly the peers of the
    configuration. *)
Theorem newRaft_fresh (c : Config) (r : Raft) :
  newRaft c = Ok r →
  id r = ID c ∧ State r = StateFollower ∧ Term r = 0 ∧ Vote r = None_
  ∧ Lead r = None_ ∧ votes r = None ∧ msgs r = []
  ∧ electionElapsed r = 0 ∧ heartbeatElapsed r = 0
  ∧ electionTimeout r = ElectionTick c ∧ heartbeatTimeout r = HeartbeatTick c
  ∧ leadTransferee r = 0 ∧ PendingConfIndex r = 0
  ∧ Some (Log r) = newLog <$> Storage_ c
  ∧ ∀ p, Prs r !! p = if decide (p ∈ peers c) then Some (mkProgress 0 0) else None.
Proof.
  intros H. apply newRaft_node in H as (st & Hst & ->). rewrite Hst.
  cbn. repeat split.
  intros p. by rewrite lookup_install_peers, lookup_empty.
Qed.

Lemma newRaft_fresh_bootstrap :
  let r := node StateFollower 0 0 0 emptyLog None in
  id r = ID bootstrap ∧ State r = StateFollower ∧ Term r = 0 ∧ Vote r = None_
  ∧ Lead r = None_ ∧ votes r = None ∧ msgs r = []
  ∧ electionElapsed r = 0 ∧ heartbeatElapsed r = 0
  ∧ electionTimeout r = ElectionTick bootstrap
  ∧ heartbeatTimeout r = HeartbeatTick bootstrap
  ∧ leadTransferee r = 0 ∧ PendingConfIndex r = 0
  ∧ Some (Log r) = newLog <$> Storage_ bootstrap
  ∧ ∀ p, Prs r !! p
         = if decide (p ∈ peers bootstrap) then Some (mkProgress 0 0) else None.
Proof.
  intros r. apply (newRaft_fresh bootstrap r). vm_compute. reflexivity.
Defined.

(** *** The requests of a campaign *)

(** X15.  A campaign appends to the queue exactly one RequestVote per
    key of [Prs] and nothing else; each carries the node's new term and
    the last index and term of its log. *)
Theorem campaign_sends_one_request_per_peer (r : Raft) :
  ∃ l, msgs (campaign r) = msgs r ++ l
       ∧ Forall (λ x, x = voteRequest (campaign r) (pb.To x)) l
       ∧ NoDup (pb.To <$> l)
       ∧ (∀ p, p ∈ pb.To <$> l ↔ p ∈ dom (Prs r))
       ∧ length l = size (Prs r).
Proof.
  destruct (campaign_fields r) as (_&HT&_&_&_&Hid&_&HL).
  destruct (becomeCandidate_fields r) as (_&HT'&_&_&_&_&_&_&Hid'&_&HL').
  assert (∀ p, voteRequest (campaign r) p = voteRequest (becomeCandidate r) p) as Hvr.
  { intros p. apply voteRequest_ext; congruence. }
  exists (voteRequest (becomeCandidate r) <$> (map_to_list (Prs r)).*1).
  assert (pb.To <$> (voteRequest (becomeCandidate r) <$> (map_to_list (Prs r)).*1)
          = (map_to_list (Prs r)).*1) as HTo.
  { rewrite <- list_fmap_compose. rewrite <- (list_fmap_id (map_to_list (Prs r)).*1) at 2.
    by apply list_fmap_ext. }
  split; [by rewrite campaign_unfold|].
  split; [|split; [|split]].
  - apply Forall_fmap, Forall_forall. intros p _.
    change (voteRequest (becomeCandidate r) p = voteRequest (campaign r) p).
    by rewrite Hvr.
  - rewrite HTo. apply NoDup_fst_map_to_list.
  - intros p. rewrite HTo, elem_of_dom. split.
    + intros [[q x] [-> Hx]]%list_elem_of_fmap. apply elem_of_map_to_list in Hx. by exists x.
    + intros [x Hx]. apply list_elem_of_fmap. exists (p, x).
      split; [done|]. by apply elem_of_map_to_list.
  - by rewrite !length_fmap, length_map_to_list.
Qed.

(** *** The queue along a trace *)

Lemma perform_sends (r r' : Raft) (k : call) :
  perform r k = Ok r' →
  ∃ l, msgs r' = msgs r ++ l ∧ Forall (λ x, pb.From x = id r) l.
Proof.
  destruct k as [m|]; simpl.
  - destruct (Step r m) as [[r1 e]|] eqn:HS; [|done]. intros [= <-].
    by apply (Step_sends r r1 m e).
  - assert (tickElection r = Ok r' →
            ∃ l, msgs r' = msgs r ++ l ∧ Forall (λ x, pb.From x = id r) l) as Hel.
    { unfold tickElection. case_decide.
      - destruct (Step _ _) as [[r1 e]|] eqn:HS; [|done]. cbn [bind]. intros [= <-].
        by apply (Step_sends _ _ _ _ HS).
      - intros [= <-]. exists []. by rewrite app_nil_r. }
    unfold tick. destruct (State r); try exact Hel.
    intros [= <-]. exists []. by rewrite app_nil_r.
Qed.

(** X13.  Every message the host drains after a trace from [newRaft]
    bears the node's id as sender; draining empties the queue, so that
    a second [readMessages] returns nothing. *)
Theorem readMessages_after_run (c : Config) (r0 r : Raft) (cs : list call) :
  newRaft c = Ok r0 →
  run r0 cs = Ok r →
  Forall (λ x, pb.From x = ID c) (readMessages r).1
  ∧ msgs (readMessages r).2 = []
  ∧ (readMessages (readMessages r).2).1 = [].
Proof.
  intros Hnew Hrun. split; [|done].
  assert (id r0 = ID c ∧ Forall (λ x, pb.From x = ID c) (msgs r0)) as H0.
  { apply newRaft_node in Hnew as (st & _ & ->). by split. }
  clear Hnew. revert r0 H0 Hrun.
  induction cs as [|k cs IH]; intros r0 [Hid H0]; simpl.
  - by intros [= <-].
  - destruct (perform r0 k) as [r1|] eqn:Hk; [|done]. simpl.
    apply IH.
    destruct (perform_sends r0 r1 k Hk) as (l&->&Hl).
    apply perform_configOf in Hk. unfold configOf in Hk.
    assert (id r1 = id r0) as -> by congruence.
    split; [done|]. apply Forall_app. split; [done|]. by rewrite <- Hid.
Qed.

Lemma readMessages_after_run_Hup :
  let r0 := node StateFollower 0 0 0 emptyLog None in
  let r := campaign r0 in
  Forall (λ x, pb.From x = ID bootstrap) (readMessages r).1
  ∧ msgs (readMessages r).2 = []
  ∧ (readMessages (readMessages r).2).1 = [].
Proof.
  intros r0 r.
  apply (readMessages_after_run bootstrap r0 r [CallStep (hupMessage r0)]).
  - vm_compute. reflexivity.
  - vm_compute. reflexivity.
Defined.

End raft.

(** ** Properties of the storage and of the raw API *)

Module standalone_storage_facts.
Import engine_util storage standalone_storage.

Section WithBadger.
Context `{B : Badger}.






End WithBadger.


End standalone_storage_facts.

Module server_facts.
Import engine_util standalone_storage kvrpcpb server.

Section WithBadger.
Context `{B : Badger}.

Lemma scanLoop_extends (fuel : nat) (limit : Z) (iter : Iterator) (kvs l : list KvPair.t) :
  scanLoop fuel limit iter kvs = Some (inl l) → ∃ ext, l = kvs ++ ext.
Proof.
  revert iter kvs. induction fuel as [|fuel IH]; intros iter kvs; cbn [scanLoop]; [done|].
  destruct (bool_decide _ || negb (Valid iter)).
  - intros [= <-]. exists []. by rewrite app_nil_r.
  - destruct (ValueCopy (itemOf iter)) as [val [err|]]; [done|].
    intros H. apply IH in H as [ext ->]. rewrite <- app_assoc. by eexists.
Qed.



Lemma scanLoop_smaller_limit (f2 : nat) (n' : Z) (iter : Iterator) (kvs l2 : list KvPair.t) :
  scanLoop f2 n' iter kvs = Some (inl l2) →
  ∀ (n : Z) (f1 : nat),
    n ≤ n' → Z.of_nat (length kvs) ≤ n → n - Z.of_nat (length kvs) < Z.of_nat f1 →
    scanLoop f1 n iter kvs = Some (inl (take (Z.to_nat n) l2)).
Proof.
  revert iter kvs. induction f2 as [|f2 IH]; intros iter kvs; cbn [scanLoop]; [done|].
  intros H2 n f1 Hn Hlen Hf1.
  destruct f1 as [|f1]; [lia|]. cbn [scanLoop].
  case_bool_decide as H2len; cbn [orb] in H2.
  - injection H2 as <-.
    rewrite bool_decide_eq_true_2 by lia. cbn [orb].
    by rewrite take_ge by lia.
  - destruct (Valid iter); cbn [negb] in *.
    + destruct (ValueCopy (itemOf iter)) as [val [err|]]; [done|].
      case_bool_decide as H1len; cbn [orb].
      * apply scanLoop_extends in H2 as [ext ->].
        rewrite <- app_assoc.
        replace (Z.to_nat n) with (length kvs) by lia.
        by rewrite take_app_length.
      * apply (IH _ _ H2); [done| |].
        -- rewrite length_app. simpl. lia.
        -- rewrite length_app. simpl. lia.
    + injection H2 as <-. rewrite orb_true_r.
      by rewrite take_ge by lia.
Qed.

(** X20.  Scanning with a smaller limit returns the first pairs of the scan
    with the larger limit. *)
Theorem RawScan_smaller_limit (srv : Server) (req : RawScanRequest.t) (n : Z)
    (resp : RawScanResponse.t) :
  0 ≤ n ≤ RawScanRequest.Limit req →
  RawScan srv req = Some (Some resp, None) →
  RawScan srv (RawScanRequest.mk (RawScanRequest.StartKey req) n (RawScanRequest.Cf req))
  = Some (Some (RawScanResponse.mk (take (Z.to_nat n) (RawScanResponse.Kvs resp))), None).
Proof.
  intros Hn. unfold RawScan, Reader, newBadgerRader. cbn [RawScanRequest.StartKey RawScanRequest.Limit RawScanRequest.Cf].
  destruct (scanLoop _ (RawScanRequest.Limit req) _ _) as [[l|err]|] eqn:H2; [|done|done].
  intros [= <-].
  rewrite (scanLoop_smaller_limit _ _ _ _ _ H2); [done|lia|simpl; lia|simpl; lia].
Qed.


End WithBadger.

Lemma RawScan_smaller_limit_of_two :
  let k1 := [Byte.x61] in
  let k2 := [Byte.x62] in
  let v := [Byte.x76] in
  let srv := @mkServer inMemory (@mkStandAloneStorage inMemory [(k1, Some v); (k2, Some v)]) in
  let req := RawScanRequest.mk [] 2 "default" in
  RawScan srv (RawScanRequest.mk (RawScanRequest.StartKey req) 1 (RawScanRequest.Cf req))
  = Some (Some (RawScanResponse.mk
                  (take (Z.to_nat 1) [KvPair.mk k1 v; KvPair.mk k2 v])), None).
Proof.
  intros k1 k2 v srv req.
  apply (RawScan_smaller_limit srv req 1 (RawScanResponse.mk [KvPair.mk k1 v; KvPair.mk k2 v])).
  - vm_compute. split; discriminate.
  - vm_compute. reflexivity.
Defined.

End server_facts.
